(** * spellfix: protection, local rewriting, chunking and patch application

    A shallow embedding of [spellfix.py].  Python strings are lists of
    code points, Python integers are [Z], the regular expressions of the
    module are terms of a small syntax interpreted by a backtracking
    matcher that follows the priorities of Python's [re], and the
    JSON answer of the grammar service is a tree of [json] values. *)

From Stdlib Require Import String Ascii List ZArith NArith Lia Bool.
Import ListNotations.

Set Implicit Arguments.
Set Warnings "-register-all".

(** ** Text *)

(** A code point.  [text] is a Python [str]. *)
Definition char := N.
Definition text := list char.

(** The code points of an ASCII literal. *)
Definition str (s : string) : text := map N_of_ascii (list_ascii_of_string s).

Definition in_range (lo hi c : char) : bool := ((lo <=? c) && (c <=? hi))%N.
Arguments in_range (lo hi c)%_N.
Definition one_of (s : string) (c : char) : bool := existsb (N.eqb c) (str s).

Definition is_upper (c : char) : bool := in_range 65 90 c.
Definition is_lower (c : char) : bool := in_range 97 122 c.
Definition is_alpha (c : char) : bool := is_upper c || is_lower c.
Definition is_digit09 (c : char) : bool := in_range 48 57 c.
Definition is_alnum (c : char) : bool := is_alpha c || is_digit09 c.

(** [\s] on [str] patterns: the characters for which [str.isspace] holds. *)
Definition is_space (c : char) : bool :=
  in_range 9 13 c || in_range 28 32 c || (c =? 0x85)%N || (c =? 0xA0)%N
  || (c =? 0x1680)%N || in_range 0x2000 0x200A c || (c =? 0x2028)%N
  || (c =? 0x2029)%N || (c =? 0x202F)%N || (c =? 0x205F)%N || (c =? 0x3000)%N.

(** The private use area U+E000..U+F8FF: neither letters, digits nor
    space, and without case. *)
Definition is_private (c : char) : bool := in_range 0xE000 0xF8FF c.

(** The Unicode tables of the Python runtime outside ASCII and the
    private use area, which the program inherits from [re] and [str]:
    which code points are alphanumeric ([\w]), which are decimal digits
    ([\d]), simple case folding (IGNORECASE), and [str.lower]. *)
Class Unicode : Type := {
  alnum_hi : char -> bool;
  digit_hi : char -> bool;
  fold_hi : char -> char;
  str_lower : text -> text
}.

(** ** JSON values, as [Response.json()] returns them *)

Inductive json : Type :=
| JNull
| JBool (b : bool)
| JInt (z : Z)
| JFloat (num den : Z)   (* a float that is not an [int], as a fraction *)
| JStr (s : text)
| JList (l : list json)
| JDict (d : list (text * json)).

(** ** Exceptions *)

Inductive exn : Type :=
| KeyError
| TypeError
| IndexError
| AttributeError
| RequestError (msg : text).

Inductive result (A : Type) : Type :=
| Ok (a : A)
| Raise (e : exn).
Arguments Ok {A} a.
Arguments Raise {A} e.

Definition bind {A B : Type} (m : result A) (f : A -> result B) : result B :=
  match m with
  | Ok a => f a
  | Raise e => Raise e
  end.

Notation "x <- m ;; k" := (bind m (fun x => k))
  (at level 61, m at next level, right associativity).

(** ** Regular expressions *)

(** The constructs of [re] that the module's patterns use.  A character
    class or literal is its membership test. *)
Inductive regex : Type :=
| Empty
| Set_ (p : char -> bool)
| Cat (r1 r2 : regex)
| Alt (r1 r2 : regex)
| Rep (lo : nat) (hi : option nat) (r : regex)
| Grp (i : nat) (r : regex)
| Bow
| NotBow
| Ahead (r : regex)
| NotAhead (r : regex)
| NotBehind (p : char -> bool)
| Bos.

(** A position of the matcher: the character just before the cursor
    ([None] at the start of the string), the text from the cursor on, and
    the groups captured so far. *)
Record mstate : Type := MState {
  before : option char;
  rest : text;
  groups : list (nat * text)
}.

Fixpoint assoc_nat (i : nat) (g : list (nat * text)) : option text :=
  match g with
  | [] => None
  | (j, v) :: g' => if Nat.eqb i j then Some v else assoc_nat i g'
  end.

(** [m.group(i)]. *)
Definition group (m : mstate) (i : nat) : text :=
  match assoc_nat i (groups m) with
  | Some v => v
  | None => []
  end.

Definition eat (c : char) (s : text) (st : mstate) : mstate :=
  MState (Some c) s (groups st).

(** The text between the position [s] and the later position [s']. *)
Definition consumed (s s' : text) : text := firstn (length s - length s') s.
Arguments consumed : simpl never.

Definition capture (i : nat) (st st' : mstate) : mstate :=
  MState (before st') (rest st')
    ((i, consumed (rest st) (rest st')) :: groups st').

(** Greedy repetition [r{lo,hi}]: one more round first, then stopping
    here.  A round that consumes nothing is not repeated. *)
Fixpoint rep (round : mstate -> list mstate) (fuel lo : nat) (hi : option nat)
    (st : mstate) : list mstate :=
  match fuel with
  | O => if Nat.eqb lo 0 then [st] else []
  | S fuel' =>
      (match hi with
       | Some O => []
       | _ =>
           flat_map
             (fun st' =>
                if Nat.ltb (length (rest st')) (length (rest st))
                then rep round fuel' (Nat.pred lo) (option_map Nat.pred hi) st'
                else [])
             (round st)
       end)
      ++ (if Nat.eqb lo 0 then [st] else [])
  end.

Section Engine.
Context `{Unicode}.

(** [\w], [\d] and the case folding of IGNORECASE. *)
Definition is_word (c : char) : bool :=
  if (c <? 128)%N then is_alnum c || (c =? 95)%N
  else if is_private c then false
  else alnum_hi c.

Definition is_digit (c : char) : bool :=
  if (c <? 128)%N then is_digit09 c
  else if is_private c then false
  else digit_hi c.

Definition fold (c : char) : char :=
  if (c <? 128)%N then (if is_upper c then c + 32 else c)%N
  else if is_private c then c
  else fold_hi c.

Definition word_before (st : mstate) : bool :=
  match before st with
  | Some c => is_word c
  | None => false
  end.

Definition word_after (st : mstate) : bool :=
  match rest st with
  | c :: _ => is_word c
  | [] => false
  end.

(** All the ways [r] matches at [st], in the order in which a
    backtracking matcher tries them: the head is the match [re] reports. *)
Fixpoint rmatch (r : regex) (st : mstate) : list mstate :=
  match r with
  | Empty => [st]
  | Set_ p =>
      match rest st with
      | c :: s => if p c then [eat c s st] else []
      | [] => []
      end
  | Cat r1 r2 => flat_map (rmatch r2) (rmatch r1 st)
  | Alt r1 r2 => rmatch r1 st ++ rmatch r2 st
  | Rep lo hi r1 => rep (rmatch r1) (S (length (rest st))) lo hi st
  | Grp i r1 => map (capture i st) (rmatch r1 st)
  | Bow => if xorb (word_before st) (word_after st) then [st] else []
  | NotBow => if xorb (word_before st) (word_after st) then [] else [st]
  | Ahead r1 => match rmatch r1 st with [] => [] | _ :: _ => [st] end
  | NotAhead r1 => match rmatch r1 st with [] => [st] | _ :: _ => [] end
  | NotBehind p =>
      match before st with
      | Some c => if p c then [] else [st]
      | None => [st]
      end
  | Bos => match before st with None => [st] | Some _ => [] end
  end.

(** The match of [r] that starts at the cursor, with group 0 set. *)
Definition match_here (r : regex) (bef : option char) (s : text) : option mstate :=
  hd_error (rmatch (Grp 0 r) (MState bef s [])).

(** [pat.sub(repl, s)] with a template or a pure callable: scan from the
    left; where the pattern matches, emit the replacement and go on after
    the match, else copy one character.  After an empty match one
    character is copied. *)
Fixpoint sub_from (fuel : nat) (r : regex) (repl : mstate -> text)
    (bef : option char) (s : text) : text :=
  match fuel with
  | O => s
  | S fuel' =>
      match match_here r bef s with
      | Some m =>
          if Nat.ltb (length (rest m)) (length s)
          then repl m ++ sub_from fuel' r repl (before m) (rest m)
          else repl m ++
               match s with
               | [] => []
               | c :: s' => c :: sub_from fuel' r repl (Some c) s'
               end
      | None =>
          match s with
          | [] => []
          | c :: s' => c :: sub_from fuel' r repl (Some c) s'
          end
      end
  end.

Definition re_sub (r : regex) (repl : mstate -> text) (s : text) : text :=
  sub_from (S (length s)) r repl None s.

(** [pat.sub(repl, s)] with a callable that updates the enclosing state
    (the [nonlocal] counter and the dictionary of [protect]). *)
Fixpoint sub_from_st {S : Type} (fuel : nat) (r : regex)
    (repl : S -> mstate -> text * S) (st : S)
    (bef : option char) (s : text) : text * S :=
  match fuel with
  | O => (s, st)
  | S fuel' =>
      match match_here r bef s with
      | Some m =>
          let (out, st1) := repl st m in
          if Nat.ltb (length (rest m)) (length s)
          then let (tl, st2) := sub_from_st fuel' r repl st1 (before m) (rest m) in
               (out ++ tl, st2)
          else match s with
               | [] => (out, st1)
               | c :: s' =>
                   let (tl, st2) := sub_from_st fuel' r repl st1 (Some c) s' in
                   (out ++ c :: tl, st2)
               end
      | None =>
          match s with
          | [] => ([], st)
          | c :: s' =>
              let (tl, st2) := sub_from_st fuel' r repl st (Some c) s' in
              (c :: tl, st2)
          end
      end
  end.

Definition re_sub_st {S : Type} (r : regex) (repl : S -> mstate -> text * S)
    (st : S) (s : text) : text * S :=
  sub_from_st (Datatypes.S (length s)) r repl st None s.

(** [re.split] for a pattern with one capturing group: the pieces
    between the matches, with group 1 of each match between them.  [cur]
    is the piece being collected, in reverse.  (No pattern of the module
    matches the empty string; an empty match is stepped over.) *)
Fixpoint split_from (fuel : nat) (r : regex) (cur : text)
    (bef : option char) (s : text) : list text :=
  match fuel with
  | O => [rev cur ++ s]
  | S fuel' =>
      match match_here r bef s with
      | Some m =>
          if Nat.ltb (length (rest m)) (length s)
          then rev cur :: group m 1 :: split_from fuel' r [] (before m) (rest m)
          else match s with
               | [] => [rev cur]
               | c :: s' => split_from fuel' r (c :: cur) (Some c) s'
               end
      | None =>
          match s with
          | [] => [rev cur]
          | c :: s' => split_from fuel' r (c :: cur) (Some c) s'
          end
      end
  end.

Definition re_split (r : regex) (s : text) : list text :=
  split_from (S (length s)) r [] None s.

End Engine.

(** ** The patterns of the module *)

Definition PH : char := 0xE000%N.

Definition any_of (cs : list (char -> bool)) (c : char) : bool :=
  existsb (fun p => p c) cs.
Definition none_of (cs : list (char -> bool)) (c : char) : bool :=
  negb (any_of cs c).

Fixpoint cats (rs : list regex) : regex :=
  match rs with
  | [] => Empty
  | [r] => r
  | r :: rs' => Cat r (cats rs')
  end.

Fixpoint alts (rs : list regex) : regex :=
  match rs with
  | [] => NotAhead Empty
  | [r] => r
  | r :: rs' => Alt r (alts rs')
  end.

Definition star (r : regex) : regex := Rep 0 None r.
Definition plus (r : regex) : regex := Rep 1 None r.
Definition opt (r : regex) : regex := Rep 0 (Some 1) r.
Definition at_least (n : nat) (r : regex) : regex := Rep n None r.

(** A literal string. *)
Definition lit (s : text) : regex := cats (map (fun a => Set_ (N.eqb a)) s).

Section Patterns.
Context `{Unicode}.

(** A character class and a literal string under [re.IGNORECASE]. *)
Definition icase (p : char -> bool) (c : char) : bool :=
  p c || p (fold c) || (if is_lower (fold c) then p (fold c - 32)%N else false).
Definition lit_i (s : text) : regex :=
  cats (map (fun a => Set_ (fun c => N.eqb (fold c) (fold a))) s).

Definition az09 : char -> bool := is_alnum.
Definition ident_start (c : char) : bool := is_alpha c || one_of "_" c.
Definition ident_char (c : char) : bool := is_alnum c || one_of "_" c.

Definition BRANDS : list text := [str "SpellFix"].

(* \b(?:SpellFix)\b, IGNORECASE *)
Definition BRAND_RE : regex :=
  cats [Bow; alts (map lit_i BRANDS); Bow].

(* \b(?:https?://|ftp://|www\.)[^\s<>()Q]+, IGNORECASE; Q is the double
   quote, code point 34 *)
Definition URL_RE : regex :=
  cats [Bow;
        alts [cats [lit_i (str "http"); opt (lit_i (str "s")); lit (str "://")];
              cats [lit_i (str "ftp"); lit (str "://")];
              cats [lit_i (str "www"); lit (str ".")]];
        plus (Set_ (none_of [is_space; one_of "<>()"; N.eqb 34]))].

(* \b[A-Z0-9._%+-]+@[A-Z0-9.-]+\.[A-Z]{2,}\b, IGNORECASE *)
Definition EMAIL_RE : regex :=
  cats [Bow;
        plus (Set_ (icase (any_of [is_upper; is_digit09; one_of "._%+-"])));
        lit (str "@");
        plus (Set_ (icase (any_of [is_upper; is_digit09; one_of ".-"])));
        lit (str ".");
        at_least 2 (Set_ (icase is_upper));
        Bow].

(* \b[a-z]+[A-Z][A-Za-z0-9]*\b *)
Definition CAMEL_RE : regex :=
  cats [Bow; plus (Set_ is_lower); Set_ is_upper; star (Set_ az09); Bow].

(* \b[A-Za-z0-9]+(?:_[A-Za-z0-9]+)+\b *)
Definition SNAKE_RE : regex :=
  cats [Bow; plus (Set_ az09);
        plus (cats [lit (str "_"); plus (Set_ az09)]); Bow].

(* \b[A-Za-z0-9]+(?:-[A-Za-z0-9]+)+\b *)
Definition KEBAB_RE : regex :=
  cats [Bow; plus (Set_ az09);
        plus (cats [lit (str "-"); plus (Set_ az09)]); Bow].

(* \b(?=[A-Za-z_])(?:[A-Za-z_][A-Za-z0-9_]*\.)+[A-Za-z_][A-Za-z0-9_]*\b(?=.*[_0-9A-Z]) *)
Definition DOT_IDENT_RE : regex :=
  cats [Bow;
        Ahead (Set_ ident_start);
        plus (cats [Set_ ident_start; star (Set_ ident_char); lit (str ".")]);
        Set_ ident_start; star (Set_ ident_char);
        Bow;
        Ahead (cats [star (Set_ (fun c => negb (N.eqb c 10)));
                     Set_ (any_of [one_of "_"; is_digit09; is_upper])])].

(* (?:(?:~|/)[^\s]+)|(?:[A-Za-z]:\\[^\s]+) *)
Definition PATH_RE : regex :=
  Alt (cats [Alt (lit (str "~")) (lit (str "/"));
             plus (Set_ (none_of [is_space]))])
      (cats [Set_ is_alpha; lit (str ":"); lit [92%N];
             plus (Set_ (none_of [is_space]))]).

(* \B--?[A-Za-z][A-Za-z0-9-]*\b *)
Definition FLAG_RE : regex :=
  cats [NotBow; lit (str "-"); opt (lit (str "-"));
        Set_ is_alpha; star (Set_ (any_of [is_alnum; one_of "-"])); Bow].

Definition is_blank (c : char) : bool := N.eqb c 32 || N.eqb c 9.
Definition is_punct (c : char) : bool := one_of ",.;:!?" c.
Definition is_dot (c : char) : bool := N.eqb c 46.

(* [ \t]{2,} *)
Definition MULTISPACE_RE : regex := at_least 2 (Set_ is_blank).
(* \s+([,.;:!?]) *)
Definition SPACE_BEFORE_PUNCT_RE : regex :=
  Cat (plus (Set_ is_space)) (Grp 1 (Set_ is_punct)).
(* ([,.;:!?])([A-Za-z0-9]) *)
Definition SPACE_AFTER_PUNCT_RE : regex :=
  Cat (Grp 1 (Set_ is_punct)) (Grp 2 (Set_ is_alnum)).
(* \.\s*\.\s*\. *)
Definition ELLIPSIS_RE : regex :=
  cats [Set_ is_dot; star (Set_ is_space); Set_ is_dot;
        star (Set_ is_space); Set_ is_dot].
(* (\.)([A-Za-z]) *)
Definition SPACE_AFTER_DOT_RE : regex :=
  Cat (Grp 1 (Set_ is_dot)) (Grp 2 (Set_ is_alpha)).

Definition TLDS : list text :=
  map str ["com"; "net"; "org"; "io"; "co"; "ai"; "app"; "dev"; "gov"; "edu";
           "me"; "gg"; "tv"; "fm"; "hk"; "tw"; "jp"; "sg"; "kr"; "cn"; "uk";
           "de"; "fr"; "it"; "es"; "nl"; "se"; "no"; "fi"]%string.

(* \b[A-Za-z0-9-]+\.(?:com|net|...|fi)\b, IGNORECASE *)
Definition DOMAIN_LIKE_RE : regex :=
  cats [Bow; plus (Set_ (icase (any_of [is_alnum; one_of "-"])));
        lit (str "."); alts (map lit_i TLDS); Bow].
(* \b(?:\d{1,3}\.){3}\d{1,3}\b *)
Definition IP_RE : regex :=
  cats [Bow; Rep 3 (Some 3) (Cat (Rep 1 (Some 3) (Set_ is_digit)) (lit (str ".")));
        Rep 1 (Some 3) (Set_ is_digit); Bow].
(* \b\d+(?:\.\d+){1,}\b *)
Definition VERSION_RE : regex :=
  cats [Bow; plus (Set_ is_digit);
        at_least 1 (Cat (lit (str ".")) (plus (Set_ is_digit))); Bow].
(* \b(?:[A-Za-z]\.){2,}\b *)
Definition ABBREV_RE : regex :=
  cats [Bow; at_least 2 (Cat (Set_ is_alpha) (lit (str "."))); Bow].

(* (?<!\w)([A-Za-z]{2,})\.([A-Za-z]{2,})(?!\w) *)
Definition PROSE_DOT_JOIN_RE : regex :=
  cats [NotBehind is_word;
        Grp 1 (at_least 2 (Set_ is_alpha));
        lit (str ".");
        Grp 2 (at_least 2 (Set_ is_alpha));
        NotAhead (Set_ is_word)].

End Patterns.

(** ** Strings, dictionaries and slices *)

Definition len (s : text) : Z := Z.of_nat (length s).

Fixpoint text_eqb (a b : text) : bool :=
  match a, b with
  | [], [] => true
  | x :: a', y :: b' => N.eqb x y && text_eqb a' b'
  | _, _ => false
  end.

(** [s] without the prefix [k], when it starts with [k]. *)
Fixpoint strip_prefix (k s : text) : option text :=
  match k, s with
  | [], _ => Some s
  | x :: k', y :: s' => if N.eqb x y then strip_prefix k' s' else None
  | _ :: _, [] => None
  end.

Fixpoint replace_from (fuel : nat) (k v s : text) : text :=
  match fuel with
  | O => s
  | S fuel' =>
      match strip_prefix k s with
      | Some s' => v ++ replace_from fuel' k v s'
      | None =>
          match s with
          | [] => []
          | c :: s' => c :: replace_from fuel' k v s'
          end
      end
  end.

(** [s.replace(k, v)]. *)
Definition replace (k v s : text) : text :=
  match k with
  | [] => v ++ flat_map (fun c => c :: v) s
  | _ :: _ => replace_from (S (length s)) k v s
  end.

(** [sep.join(l)]. *)
Fixpoint join (sep : text) (l : list text) : text :=
  match l with
  | [] => []
  | [a] => a
  | a :: l' => a ++ sep ++ join sep l'
  end.

(** A [dict] from strings, in insertion order. *)
Definition dict (V : Type) : Type := list (text * V).

Fixpoint dict_get {V : Type} (k : text) (d : dict V) : option V :=
  match d with
  | [] => None
  | (k', v) :: d' => if text_eqb k k' then Some v else dict_get k d'
  end.

(** [d[k] = v]: a present key keeps its place. *)
Fixpoint dict_set {V : Type} (k : text) (v : V) (d : dict V) : dict V :=
  match d with
  | [] => [(k, v)]
  | (k', v') :: d' =>
      if text_eqb k k' then (k', v) :: d' else (k', v') :: dict_set k v d'
  end.

(** A slice bound, as Python clips it to [0..n]. *)
Definition clip (n i : Z) : Z :=
  if (i <? 0)%Z then Z.max (i + n) 0 else Z.min i n.

(** [s[a:b]], [s[:b]] and [s[a:]] for integers [a], [b] of any sign. *)
Definition slice (s : text) (a b : Z) : text :=
  let lo := clip (len s) a in
  let hi := clip (len s) b in
  firstn (Z.to_nat (hi - lo)) (skipn (Z.to_nat lo) s).
Definition slice_to (s : text) (b : Z) : text := slice s 0 b.
Definition slice_from (s : text) (a : Z) : text := slice s a (len s).

(** Decimal digits of a counter, for [str.format]. *)
Fixpoint decimal_from (fuel : nat) (n : N) : text :=
  match fuel with
  | O => []
  | S fuel' =>
      (if (n <? 10)%N then [] else decimal_from fuel' (n / 10)%N)
      ++ [(48 + n mod 10)%N]
  end.
Definition decimal (n : N) : text := decimal_from (S (N.to_nat (N.log2 n))) n.

(** PLACEHOLDER_FMT.format(n=n) *)
Definition PLACEHOLDER_FMT (n : N) : text := [PH] ++ decimal n ++ [PH].

(** ** Protector *)

Section Protector.
Context `{Unicode}.

(** The state that the closure [repl] of [protect] updates: the counter
    [n] and the dictionary [protected]. *)
Definition pstate : Type := (N * dict text)%type.

Definition repl (st : pstate) (m : mstate) : text * pstate :=
  let (n, protected) := st in
  let key := PLACEHOLDER_FMT n in
  (key, ((n + 1)%N, dict_set key (group m 0) protected)).

Definition sub (pat : regex) (ts : text * pstate) : text * pstate :=
  re_sub_st pat repl (snd ts) (fst ts).

Definition protect (raw : text) : text * dict text :=
  let ts := sub BRAND_RE (raw, (0%N, [])) in
  let ts := fold_left (fun ts pat => sub pat ts)
              [URL_RE; EMAIL_RE; PATH_RE; FLAG_RE; DOT_IDENT_RE;
               CAMEL_RE; SNAKE_RE; KEBAB_RE] ts in
  (fst ts, snd (snd ts)).

Definition unprotect (t : text) (protected : dict text) : text :=
  fold_left (fun t kv => replace (fst kv) (snd kv) t) protected t.

(** ** Local rewriter *)

(* the template \1 \2 *)
Definition g1_sp_g2 (m : mstate) : text := group m 1 ++ str " " ++ group m 2.
(* the template \1 *)
Definition g1 (m : mstate) : text := group m 1.
Definition const (t : text) (_ : mstate) : text := t.

Definition fix_dot_joined_words (t : text) : text :=
  Nat.iter 8 (re_sub PROSE_DOT_JOIN_RE g1_sp_g2) t.

Definition safe_spacing_cleanup (t : text) : text :=
  let t := re_sub ELLIPSIS_RE (const (str "...")) t in
  let t := re_sub SPACE_BEFORE_PUNCT_RE g1 t in
  let t := re_sub SPACE_AFTER_PUNCT_RE g1_sp_g2 t in
  let t := re_sub SPACE_AFTER_DOT_RE g1_sp_g2 t in
  let t := re_sub MULTISPACE_RE (const (str " ")) t in
  t.

(** [.upper()] on a match of [[a-z]]. *)
Definition upper_az (t : text) : text :=
  map (fun c => if is_lower c then (c - 32)%N else c) t.

Definition cap_after_punct (m : mstate) : text :=
  group m 1 ++ group m 2 ++ upper_az (group m 3).
Definition cap_para (m : mstate) : text :=
  group m 1 ++ upper_az (group m 2).

(* \n\s*\n *)
Definition BLANK_LINE : regex :=
  cats [Set_ (N.eqb 10); star (Set_ is_space); Set_ (N.eqb 10)].

Definition iphone_like_caps (t : text) : text :=
  (* (?<![A-Za-z])i(?![A-Za-z]) *)
  let t := re_sub (cats [NotBehind is_alpha; lit (str "i"); NotAhead (Set_ is_alpha)])
             (const (str "I")) t in
  (* ([.!?])(\s+)([a-z]) *)
  let t := re_sub (cats [Grp 1 (Set_ (one_of ".!?")); Grp 2 (plus (Set_ is_space));
                         Grp 3 (Set_ is_lower)])
             cap_after_punct t in
  (* (^|\n\s*\n)([a-z]) *)
  let t := re_sub (Cat (Grp 1 (Alt Bos BLANK_LINE)) (Grp 2 (Set_ is_lower)))
             cap_para t in
  t.

(** ** Chunker *)

Definition nonempty (t : text) : bool :=
  match t with [] => false | _ :: _ => true end.

(** The loop of [chunk_paragraphs], from the state ([chunks], [cur]). *)
Fixpoint chunk_loop (MAX_CHUNK_CHARS : Z) (parts : list text)
    (chunks : list text) (cur : text) : list text :=
  match parts with
  | [] => if nonempty cur then chunks ++ [cur] else chunks
  | p :: parts' =>
      if (len cur + len p >? MAX_CHUNK_CHARS)%Z && nonempty cur
      then chunk_loop MAX_CHUNK_CHARS parts' (chunks ++ [cur]) ([] ++ p)
      else chunk_loop MAX_CHUNK_CHARS parts' chunks (cur ++ p)
  end.

Definition chunk_paragraphs (MAX_CHUNK_CHARS : Z) (t : text) : list text :=
  let parts := re_split (Grp 1 BLANK_LINE) t in
  chunk_loop MAX_CHUNK_CHARS parts [] [].

Definition normalize_brands (t : text) : text :=
  fold_left (fun t b => re_sub (cats [Bow; lit_i b; Bow]) (const b) t) BRANDS t.

End Protector.

(** ** Patch applier *)

Section Patcher.
Context `{Unicode}.

(** Truth value of a JSON value, for [or] and [not]. *)
Definition truthy (v : json) : bool :=
  match v with
  | JNull => false
  | JBool b => b
  | JInt z => negb (z =? 0)%Z
  | JFloat n _ => negb (n =? 0)%Z
  | JStr s => nonempty s
  | JList l => match l with [] => false | _ :: _ => true end
  | JDict d => match d with [] => false | _ :: _ => true end
  end.

(** [v.get(k, default)]: only a [dict] has the method. *)
Definition get (v : json) (k : string) (default : json) : result json :=
  match v with
  | JDict d =>
      Ok (match dict_get (str k) d with Some x => x | None => default end)
  | _ => Raise AttributeError
  end.

(** [v[k]] for a string key. *)
Definition item (v : json) (k : string) : result json :=
  match v with
  | JDict d =>
      match dict_get (str k) d with Some x => Ok x | None => Raise KeyError end
  | _ => Raise TypeError
  end.

(** [v[0]]. *)
Definition first (v : json) : result json :=
  match v with
  | JList (x :: _) => Ok x
  | JList [] => Raise IndexError
  | JStr (c :: _) => Ok (JStr [c])
  | JStr [] => Raise IndexError
  | JDict _ => Raise KeyError
  | _ => Raise TypeError
  end.

(** Python numbers: an [int] (a [bool] is one) or a [float]. *)
Inductive number : Type :=
| Int (z : Z)
| Float.

Definition as_number (v : json) : option number :=
  match v with
  | JInt z => Some (Int z)
  | JBool b => Some (Int (if b then 1 else 0))
  | JFloat _ _ => Some Float
  | _ => None
  end.

(** An operand of [+]: only numbers can be added to a number. *)
Definition operand (v : json) : result number :=
  match as_number v with
  | Some a => Ok a
  | None => Raise TypeError
  end.

Definition add (a b : number) : number :=
  match a, b with
  | Int x, Int y => Int (x + y)
  | _, _ => Float
  end.

(** [t[a:b]]: the bounds of a slice are integers. *)
Definition slice_num (t : text) (a b : number) : result text :=
  match a, b with
  | Int x, Int y => Ok (slice t x y)
  | _, _ => Raise TypeError
  end.

Definition is_str (v : json) (s : string) : bool :=
  match v with
  | JStr t => text_eqb t (str s)
  | _ => false
  end.

(** [v.lower()] exists on strings only. *)
Definition the_str (v : json) : result text :=
  match v with
  | JStr t => Ok t
  | _ => Raise AttributeError
  end.

Definition the_int (a : number) : result Z :=
  match a with
  | Int z => Ok z
  | Float => Raise TypeError
  end.

(** The body of the loop of [apply_misspellings_only]: from the state
    ([text], [shift]) to the state after the match [m]; [continue] leaves
    the state as it is. *)
Definition loop_body (t : text) (shift : Z) (m : json) : result (text * Z) :=
  let continue := Ok (t, shift) in
  rule <- get m "rule" (JDict []) ;;
  issue <- get rule "issueType" JNull ;;
  if negb (is_str issue "misspelling") then continue else
  r <- get m "replacements" JNull ;;
  let repls := if truthy r then r else JList [] in
  if negb (truthy repls) then continue else
  offset <- item m "offset" ;;
  offset <- operand offset ;;
  let start := add offset (Int shift) in
  length_ <- item m "length" ;;
  length_ <- operand length_ ;;
  let end_ := add start length_ in
  r0 <- first repls ;;
  replacement <- item r0 "value" ;;
  seg <- slice_num t start end_ ;;
  if existsb (N.eqb PH) seg then continue else
  orig <- slice_num t start end_ ;;
  rs <- the_str replacement ;;
  if text_eqb (str_lower orig) (str_lower rs) && negb (text_eqb orig rs)
  then continue else
  a <- the_int start ;;
  b <- the_int end_ ;;
  l <- the_int length_ ;;
  Ok (slice_to t a ++ rs ++ slice_from t b, shift + (len rs - l))%Z.

Fixpoint apply_loop (t : text) (shift : Z) (matches : list json)
    : result (text * Z) :=
  match matches with
  | [] => Ok (t, shift)
  | m :: matches' =>
      st <- loop_body t shift m ;;
      apply_loop (fst st) (snd st) matches'
  end.

Definition apply_misspellings_only (t : text) (matches : list json) : result text :=
  st <- apply_loop t 0 matches ;;
  Ok (fst st).

End Patcher.

(** ** The pipeline *)

(** A line on the error stream: [[SpellFix error] e]. *)
Inductive diag : Type :=
| SpellFixError (e : exn).

Section Pipeline.
Context `{Unicode}.

(** The grammar service: the answer to a request depends on the chunk
    and on the state of the world, which the request changes. *)
Variable World : Type.
Variable call_lt : World -> text -> result json * World.
Variable MAX_CHUNK_CHARS : Z.

(** What [for m in v] goes through. *)
Definition iterate (v : json) : result (list json) :=
  match v with
  | JList l => Ok l
  | JStr s => Ok (map (fun c => JStr [c]) s)
  | JDict d => Ok (map (fun kv => JStr (fst kv)) d)
  | _ => Raise TypeError
  end.

(** The body of the [try]. *)
Definition correct (ch : text) (answer : result json) : result text :=
  resp <- answer ;;
  matches <- get resp "matches" (JList []) ;;
  ms <- iterate matches ;;
  apply_misspellings_only ch ms.

(** The loop over the chunks, from the state ([out_chunks], error
    stream, world). *)
Fixpoint process_chunks (chunks : list text) (out_chunks : list text)
    (err : list diag) (w : World) : list text * list diag * World :=
  match chunks with
  | [] => (out_chunks, err, w)
  | ch :: chunks' =>
      let (answer, w') := call_lt w ch in
      match correct ch answer with
      | Ok ch' => process_chunks chunks' (out_chunks ++ [ch']) err w'
      | Raise e =>
          process_chunks chunks' (out_chunks ++ [ch]) (err ++ [SpellFixError e]) w'
      end
  end.

(** [main] on the text read from the input: what is written to the
    output and to the error stream. *)
Definition main (raw : text) (w : World) : text * list diag * World :=
  if forallb is_space raw then ([], [], w) else
  let (safe, protected) := protect raw in
  let safe := fix_dot_joined_words safe in
  let safe := safe_spacing_cleanup safe in
  let safe := iphone_like_caps safe in
  let chunks :=
    if (len safe >? MAX_CHUNK_CHARS)%Z
    then chunk_paragraphs MAX_CHUNK_CHARS safe else [safe] in
  let '(out_chunks, err, w') := process_chunks chunks [] [] w in
  let out := concat out_chunks in
  let out := unprotect out protected in
  let out := normalize_brands out in
  (out, err, w').

End Pipeline.

(** The tables restricted to ASCII: no letter, digit or case outside it. *)
#[export] Instance ascii_tables : Unicode := {|
  alnum_hi := fun _ => false;
  digit_hi := fun _ => false;
  fold_hi := fun c => c;
  str_lower := map (fun c => if is_upper c then (c + 32)%N else c)
|}.

(** ** Notions used in the statements *)

Section Notions.
Context `{Unicode}.

Definition field (m : json) (k : string) : option json :=
  match m with
  | JDict d => dict_get (str k) d
  | _ => None
  end.

(** The issue type of a match whose rule is a record or is absent
    ([JNull] when there is none). *)
Definition issue_type (m : json) : option json :=
  match m with
  | JDict d =>
      match dict_get (str "rule") d with
      | None => Some JNull
      | Some (JDict rule) =>
          Some (match dict_get (str "issueType") rule with
                | Some v => v
                | None => JNull
                end)
      | Some _ => None
      end
  | _ => None
  end.

Definition misspelling (m : json) : Prop :=
  exists v, issue_type m = Some v /\ is_str v "misspelling" = true.
Definition other_issue (m : json) : Prop :=
  exists v, issue_type m = Some v /\ is_str v "misspelling" = false.

(** The replacement candidates of a match: none when the field is
    absent or empty. *)
Definition candidates (m : json) : option (list json) :=
  match m with
  | JDict d =>
      match dict_get (str "replacements") d with
      | None => Some []
      | Some (JList l) => Some l
      | Some v => if truthy v then None else Some []
      end
  | _ => None
  end.

Definition first_replacement (m : json) : option text :=
  match candidates m with
  | Some (JDict e :: _) =>
      match dict_get (str "value") e with
      | Some (JStr r) => Some r
      | _ => None
      end
  | _ => None
  end.

Definition int_field (m : json) (k : string) : option Z :=
  match field m k with
  | Some (JInt z) => Some z
  | _ => None
  end.

(** [orig] and [r] differ in letter case only. *)
Definition case_only (orig r : text) : Prop :=
  str_lower orig = str_lower r /\ orig <> r.

(** The result of the function, from a state of its loop. *)
Definition finish (st : result (text * Z)) : result text :=
  st <- st ;; Ok (fst st).

End Notions.

(** A match as the service is meant to send it, as far as the fields
    that are read as numbers and strings go: a record with an integer
    offset and an integer length, whose replacement candidates each carry
    a string value. *)
Definition candidate_record (e : json) : Prop :=
  exists (d : dict json) (r : text), e = JDict d /\ dict_get (str "value") d = Some (JStr r).

Definition match_record (m : json) : Prop :=
  exists d : dict json,
    m = JDict d /\
    (exists o, dict_get (str "offset") d = Some (JInt o)) /\
    (exists l, dict_get (str "length") d = Some (JInt l)) /\
    match dict_get (str "replacements") d with
    | None => True
    | Some (JList es) => Forall candidate_record es
    | Some v => truthy v = false
    end.

(** The rule of a match is a record, when there is one. *)
Definition rule_record (m : json) : Prop :=
  match field m "rule" with
  | None | Some (JDict _) => True
  | Some _ => False
  end.

(** A match record for tests. *)
Definition a_match (issue : string) (o l : Z) (r : string) : json :=
  JDict [(str "rule", JDict [(str "issueType", JStr (str issue))]);
         (str "offset", JInt o); (str "length", JInt l);
         (str "replacements", JList [JDict [(str "value", JStr (str r))]])].

(** The pieces of a split, in turn a piece between two matches and the
    text of a match: those at even places. *)
Fixpoint alternate {A : Type} (l : list A) : list A :=
  match l with
  | x :: _ :: l' => x :: alternate l'
  | _ => l
  end.

(** A chunk is within the bound or is one of the pieces. *)
Definition fits (MAX_CHUNK_CHARS : Z) (all : list text) (c : text) : Prop :=
  (len c <= MAX_CHUNK_CHARS)%Z \/ In c all.

Section ChunkerNotions.
Context `{Unicode}.

(** What [chunk_paragraphs] cuts the text into. *)
Definition pieces (t : text) : list text := re_split (Grp 1 BLANK_LINE) t.

(** The paragraphs of a text, the maximal runs between blank-line
    boundaries, and the boundaries themselves. *)
Definition paragraphs (t : text) : list text := alternate (pieces t).
Definition boundaries (t : text) : list text := alternate (tl (pieces t)).

End ChunkerNotions.

Section PipelineNotions.
Context `{Unicode}.

(** Every chunk gives one output chunk, at its place: itself, or its
    correction when the body of the [try] went through. *)
Definition emitted (ch out : text) : Prop :=
  out = ch \/ exists answer, correct ch answer = Ok out.

Variable World : Type.
Variable call_lt : World -> text -> result json * World.

(** What the loop owes to every chunk, from the world [w] on: one
    request for each chunk, in order; where the request is answered and
    the answer's list of matches goes through
    [apply_misspellings_only], the output chunk is that result and
    nothing is reported; where anything raises, the output chunk is the
    chunk itself and one line is reported. *)
Inductive processed : World -> list text -> list text -> list diag -> World -> Prop :=
| processed_none (w : World) : processed w [] [] [] w
| processed_corrected (w w' w'' : World) (ch ch' : text) (resp matches : json)
    (ms : list json) (chunks outs : list text) (errs : list diag) :
    call_lt w ch = (Ok resp, w') ->
    get resp "matches" (JList []) = Ok matches ->
    iterate matches = Ok ms ->
    apply_misspellings_only ch ms = Ok ch' ->
    processed w' chunks outs errs w'' ->
    processed w (ch :: chunks) (ch' :: outs) errs w''
| processed_failed (w w' w'' : World) (ch : text) (answer : result json) (e : exn)
    (chunks outs : list text) (errs : list diag) :
    call_lt w ch = (answer, w') ->
    correct ch answer = Raise e ->
    processed w' chunks outs errs w'' ->
    processed w (ch :: chunks) (ch :: outs) (SpellFixError e :: errs) w''.

End PipelineNotions.


(** [k in s]. *)
Fixpoint contains (k s : text) : bool :=
  match strip_prefix k s with
  | Some _ => true
  | None =>
      match s with
      | [] => false
      | _ :: s' => contains k s'
      end
  end.

(** A grammar service that finds nothing, and one that fails on its
    second request; the world counts the requests. *)
Definition quiet_service (w : nat) (ch : text) : result json * nat :=
  (Ok (JDict [(str "matches", JList [])]), S w).

Definition flaky_service (w : nat) (ch : text) : result json * nat :=
  if Nat.eqb w 1 then (Raise (RequestError (str "timed out")), S w)
  else (Ok (JDict [(str "matches", JList [])]), S w).

(** A grammar service that reports the first three characters of every
    chunk as a misspelling of "the", and fails on its second request. *)
Definition correcting_service (w : nat) (ch : text) : result json * nat :=
  if Nat.eqb w 1 then (Raise (RequestError (str "timed out")), S w)
  else (Ok (JDict [(str "matches", JList [a_match "misspelling" 0 3 "the"])]), S w).

(** ** Substitution as a scan *)

(** [s] without its longest prefix of characters in [p], the length of
    that prefix, and the character before the cursor after it. *)
Fixpoint drop (p : char -> bool) (s : text) : text :=
  match s with
  | c :: s' => if p c then drop p s' else s
  | [] => []
  end.

Fixpoint run_length (p : char -> bool) (s : text) : nat :=
  match s with
  | c :: s' => if p c then S (run_length p s') else O
  | [] => O
  end.

Fixpoint run_before (p : char -> bool) (bef : option char) (s : text) : option char :=
  match s with
  | c :: s' => if p c then run_before p (Some c) s' else bef
  | [] => bef
  end.

(** A substitution step seen from outside: where the text at the cursor
    matches, the replacement and the text after the match. *)
Definition step : Type := text -> option (text * text).

Fixpoint scan (fuel : nat) (h : step) (s : text) : text :=
  match fuel with
  | O => s
  | S fuel' =>
      match h s with
      | Some (out, s') =>
          if Nat.ltb (length s') (length s)
          then out ++ scan fuel' h s'
          else out ++
               match s with
               | [] => []
               | c :: s'' => c :: scan fuel' h s''
               end
      | None =>
          match s with
          | [] => []
          | c :: s' => c :: scan fuel' h s'
          end
      end
  end.

(** No character in [A] is followed by a character in [B]; [a] tells
    whether the character before the text is in [A]. *)
Fixpoint np (A B : char -> bool) (a : bool) (s : text) : bool :=
  match s with
  | [] => true
  | c :: s' => negb (a && B c) && np A B (A c) s'
  end.

(** Whether the last character is in [A], for the text [s] after a
    character for which this is [a]. *)
Fixpoint after (A : char -> bool) (a : bool) (s : text) : bool :=
  match s with
  | [] => a
  | c :: s' => after A (A c) s'
  end.

(** The five rewrites of [safe_spacing_cleanup], as steps. *)
Definition ellipsis_step : step := fun s =>
  match s with
  | c :: s1 =>
      if is_dot c then
        match drop is_space s1 with
        | d :: s2 =>
            if is_dot d then
              match drop is_space s2 with
              | e :: s3 => if is_dot e then Some (str "...", s3) else None
              | [] => None
              end
            else None
        | [] => None
        end
      else None
  | [] => None
  end.

Definition space_before_punct_step : step := fun s =>
  match s with
  | c :: s1 =>
      if is_space c then
        match drop is_space s1 with
        | p :: r => if is_punct p then Some ([p], r) else None
        | [] => None
        end
      else None
  | [] => None
  end.

Definition space_after_step (P Q : char -> bool) : step := fun s =>
  match s with
  | p :: x :: r => if P p && Q x then Some ([p; 32%N; x], r) else None
  | _ => None
  end.

Definition multispace_step : step := fun s =>
  match s with
  | c :: d :: r =>
      if is_blank c && is_blank d then Some ([32%N], drop is_blank r) else None
  | _ => None
  end.

(** After the spaces at the cursor comes a punctuation mark. *)
Definition punct_ahead (s : text) : bool :=
  match drop is_space s with
  | p :: _ => is_punct p
  | [] => false
  end.

Definition head_in (P : char -> bool) (s : text) : bool :=
  match s with
  | c :: _ => P c
  | [] => false
  end.

Section ScanNotions.
Context `{Unicode}.

(** The step of [pat.sub(repl, _)] at the cursor. *)
Definition hit (r : regex) (repl : mstate -> text) (bef : option char) (s : text)
    : option (text * text) :=
  match match_here r bef s with
  | Some m => Some (repl m, rest m)
  | None => None
  end.

End ScanNotions.

(** ** The matcher as a relation *)

(** [n] rounds of a repetition. *)
Fixpoint chain (R : mstate -> mstate -> Prop) (n : nat) (st st' : mstate) : Prop :=
  match n with
  | O => st' = st
  | S k => exists x, R st x /\ chain R k x st'
  end.

Section Relational.
Context `{Unicode}.

(** [reaches r st st']: the pattern [r] can take the matcher from [st] to
    [st'].  Every result of [rmatch] is reached; the relation forgets the
    order of the results. *)
Fixpoint reaches (r : regex) (st st' : mstate) : Prop :=
  match r with
  | Empty => st' = st
  | Set_ p => exists c s, rest st = c :: s /\ p c = true /\ st' = eat c s st
  | Cat r1 r2 => exists x, reaches r1 st x /\ reaches r2 x st'
  | Alt r1 r2 => reaches r1 st st' \/ reaches r2 st st'
  | Rep lo hi r1 =>
      exists n, lo <= n /\ (forall h, hi = Some h -> n <= h) /\
                chain (reaches r1) n st st'
  | Grp i r1 => exists x, reaches r1 st x /\ st' = capture i st x
  | Bow => st' = st /\ xorb (word_before st) (word_after st) = true
  | NotBow => st' = st /\ xorb (word_before st) (word_after st) = false
  | Ahead r1 => st' = st /\ exists x, reaches r1 st x
  | NotAhead r1 => st' = st /\ rmatch r1 st = []
  | NotBehind p =>
      st' = st /\ match before st with Some c => p c = false | None => True end
  | Bos => st' = st /\ before st = None
  end.

(** Equal but for letter case, as IGNORECASE compares characters. *)
Definition same_fold (a b : char) : Prop := fold a = fold b.

End Relational.

(** One character may become another: the relations that the local
    rewrites keep between a text and its rewriting, place by place. *)
Definition dot_to_space (a b : char) : Prop := b = a \/ (a = 46%N /\ b = 32%N).
Definition to_upper (a b : char) : Prop :=
  b = a \/ (is_lower a = true /\ b = (a - 32)%N).

(** The characters of a text that are not white space, in order. *)
Definition visible (t : text) : text := filter (fun c => negb (is_space c)) t.

(** [a] stands right before [b] somewhere in [t]. *)
Definition adjacent (a b : char) (t : text) : Prop :=
  exists u v, t = u ++ a :: b :: v.

(** A text that the spacing rules have nothing to say about: no white
    space before a punctuation mark, no punctuation mark before a letter
    or digit, no two blanks side by side. *)
Definition clean (t : text) : Prop :=
  forall a b, adjacent a b t ->
    is_space a && is_punct b = false /\
    is_punct a && is_alnum b = false /\
    is_blank a && is_blank b = false.

(** The number of placeholder delimiters in a text. *)
Definition delimiters (t : text) : nat := length (filter (N.eqb PH) t).

(** An edit against the original text: offset, length, replacement. *)
Definition edit : Type := (Z * Z * text)%type.

(** The text with all the edits made at once, from the position [pos]
    on: what lies between the edits is copied. *)
Fixpoint patched (t : text) (pos : Z) (edits : list edit) : text :=
  match edits with
  | [] => slice_from t pos
  | (o, l, r) :: edits' => slice t pos o ++ r ++ patched t (o + l) edits'
  end.

(** The edits come in ascending order, do not overlap, and lie inside
    the text, from the position [pos] on. *)
Fixpoint ordered (t : text) (pos : Z) (edits : list edit) : Prop :=
  match edits with
  | [] => (pos <= len t)%Z
  | (o, l, r) :: edits' => (pos <= o)%Z /\ (0 <= l)%Z /\ ordered t (o + l) edits'
  end.

Section PatchNotions.
Context `{Unicode}.

(** The edit passes the two guards of the loop on the original text. *)
Definition passes (t : text) (e : edit) : Prop :=
  let '(o, l, r) := e in
  existsb (N.eqb PH) (slice t o (o + l)) = false /\
  ~ case_only (slice t o (o + l)) r.

(** The match asks for the edit. *)
Definition asks (m : json) (e : edit) : Prop :=
  let '(o, l, r) := e in
  misspelling m /\ first_replacement m = Some r /\
  int_field m "offset" = Some o /\ int_field m "length" = Some l.

(** The pipeline without the grammar service. *)
Definition local_rewrite (raw : text) : text :=
  let (safe, protected) := protect raw in
  let safe := fix_dot_joined_words safe in
  let safe := safe_spacing_cleanup safe in
  let safe := iphone_like_caps safe in
  normalize_brands (unprotect safe protected).

End PatchNotions.

Section ServiceNotions.
Context `{Unicode}.
Variable World : Type.
Variable call_lt : World -> text -> result json * World.

(** The service changes nothing: each request raises, or its answer
    leaves the chunk as it is. *)
Definition silent : Prop :=
  forall w ch,
    correct ch (fst (call_lt w ch)) = Ok ch \/
    exists e, correct ch (fst (call_lt w ch)) = Raise e.

End ServiceNotions.

(** The number that a string of decimal digits writes. *)
Definition undigits (ds : text) : N :=
  fold_left (fun acc d => (acc * 10 + (d - 48))%N) ds 0%N.

(** The placeholders of the counters below [n], in order. *)
Definition placeholders (n : nat) : list text :=
  map (fun i => PLACEHOLDER_FMT (N.of_nat i)) (seq 0 n).

(** The state of [protect] between two matches: the keys recorded so
    far are the placeholders of the counters below [n]. *)
Definition numbered (st : pstate) : Prop :=
  map fst (snd st) = placeholders (N.to_nat (fst st)).

(** The characters that the spacing rules read: white space and the
    marks , . ; : ! ? *)
Definition is_sep (c : char) : bool := is_space c || is_punct c.

(** The text with every run of such characters shrunk to one mark
    [None]; [b] tells whether the text comes right after one. *)
Fixpoint skeleton (b : bool) (s : text) : list (option char) :=
  match s with
  | [] => []
  | c :: s' =>
      if is_sep c then (if b then [] else [None]) ++ skeleton true s'
      else Some c :: skeleton false s'
  end.


(** ** The matcher: what a match consumes *)

Section EngineFacts.
Context `{Unicode}.

(** A match ends at a suffix of the text it starts from. *)
Lemma rep_suffix (step : mstate -> list mstate) :
  (forall st st', In st' (step st) -> exists p, rest st = p ++ rest st') ->
  forall fuel lo hi st st',
    In st' (rep step fuel lo hi st) -> exists p, rest st = p ++ rest st'.
Proof.
  intros Hstep. induction fuel as [|fuel IH]; intros lo hi st st' Hin; simpl in Hin.
  - destruct (Nat.eqb lo 0); simpl in Hin; [|contradiction].
    destruct Hin as [<-|[]]. now exists [].
  - apply in_app_or in Hin. destruct Hin as [Hin|Hin].
    + assert (G : In st'
                (flat_map (fun st1 =>
                   if Nat.ltb (length (rest st1)) (length (rest st))
                   then rep step fuel (Nat.pred lo) (option_map Nat.pred hi) st1
                   else []) (step st))).
      { destruct hi as [[|h]|]; [contradiction | exact Hin | exact Hin]. }
      apply in_flat_map in G. destruct G as (st1 & H1 & H2).
      destruct (Nat.ltb _ _); [|contradiction].
      destruct (Hstep _ _ H1) as (p1 & E1).
      destruct (IH _ _ _ _ H2) as (p2 & E2).
      exists (p1 ++ p2). now rewrite E1, E2, app_assoc.
    + destruct (Nat.eqb lo 0); simpl in Hin; [|contradiction].
      destruct Hin as [<-|[]]. now exists [].
Qed.

Lemma rmatch_suffix (r : regex) :
  forall st st', In st' (rmatch r st) -> exists p, rest st = p ++ rest st'.
Proof.
  induction r as [|p|r1 IH1 r2 IH2|r1 IH1 r2 IH2|lo hi r1 IH1|i r1 IH1| | |r1 IH1|r1 IH1|p|];
    intros st st' Hin; cbn [rmatch] in Hin.
  - destruct Hin as [<-|[]]. now exists [].
  - destruct (rest st) as [|c s] eqn:E; [contradiction|].
    destruct (p c); [|contradiction]. destruct Hin as [<-|[]]. now exists [c].
  - apply in_flat_map in Hin. destruct Hin as (st1 & H1 & H2).
    destruct (IH1 _ _ H1) as (p1 & E1). destruct (IH2 _ _ H2) as (p2 & E2).
    exists (p1 ++ p2). now rewrite E1, E2, app_assoc.
  - apply in_app_or in Hin. destruct Hin as [Hin|Hin]; eauto.
  - eapply rep_suffix; [exact IH1 | exact Hin].
  - apply in_map_iff in Hin. destruct Hin as (st1 & <- & H1). simpl. eauto.
  - destruct (xorb _ _); [|contradiction]. destruct Hin as [<-|[]]. now exists [].
  - destruct (xorb _ _); [contradiction|]. destruct Hin as [<-|[]]. now exists [].
  - destruct (rmatch r1 st); [contradiction|]. destruct Hin as [<-|[]]. now exists [].
  - destruct (rmatch r1 st); [|contradiction]. destruct Hin as [<-|[]]. now exists [].
  - destruct (before st) as [c|]; [destruct (p c); [contradiction|]|];
      destruct Hin as [<-|[]]; now exists [].
  - destruct (before st); [contradiction|]. destruct Hin as [<-|[]]. now exists [].
Qed.

Lemma consumed_app (p r : text) : consumed (p ++ r) r = p.
Proof.
  unfold consumed.
  rewrite length_app, Nat.add_sub. rewrite firstn_app, Nat.sub_diag. simpl.
  now rewrite firstn_all, app_nil_r.
Qed.

(** Group 0 of a match is the text it consumed. *)
Lemma match_here_whole (r : regex) (bef : option char) (s : text) (m : mstate) :
  match_here r bef s = Some m -> s = group m 0 ++ rest m.
Proof.
  unfold match_here. simpl.
  destruct (rmatch r (MState bef s [])) as [|x l] eqn:E; [discriminate|].
  simpl. intros [= <-].
  destruct (@rmatch_suffix r (MState bef s []) x) as (p & Hp).
  { rewrite E. now left. }
  simpl in Hp. unfold group, capture. simpl. rewrite Hp.
  now rewrite consumed_app.
Qed.

(** When the whole pattern is group 1, so is group 1 of a match. *)
Lemma match_here_group1 (r : regex) (bef : option char) (s : text) (m : mstate) :
  match_here (Grp 1 r) bef s = Some m -> s = group m 1 ++ rest m.
Proof.
  unfold match_here. simpl. rewrite map_map.
  destruct (rmatch r (MState bef s [])) as [|x l] eqn:E; [discriminate|].
  simpl. intros [= <-].
  destruct (@rmatch_suffix r (MState bef s []) x) as (p & Hp).
  { rewrite E. now left. }
  simpl in Hp. unfold group, capture. simpl. rewrite Hp.
  now rewrite consumed_app.
Qed.

(** Splitting loses nothing. *)
Lemma split_from_concat (r : regex) (fuel : nat) :
  forall (cur : text) (bef : option char) (s : text),
    concat (split_from fuel (Grp 1 r) cur bef s) = rev cur ++ s.
Proof.
  induction fuel as [|fuel IH]; intros cur bef s; simpl split_from.
  - simpl. now rewrite app_nil_r.
  - assert (Hcopy : concat (match s with
                            | [] => [rev cur]
                            | c :: s' => split_from fuel (Grp 1 r) (c :: cur) (Some c) s'
                            end) = rev cur ++ s).
    { destruct s as [|c s']; simpl; [reflexivity|].
      rewrite IH. simpl. now rewrite <- app_assoc. }
    destruct (match_here (Grp 1 r) bef s) as [m|] eqn:E; [|exact Hcopy].
    destruct (Nat.ltb _ _); [|exact Hcopy].
    simpl. rewrite IH. simpl. now rewrite <- (match_here_group1 _ _ _ E).
Qed.

Lemma re_split_concat (r : regex) (s : text) : concat (re_split (Grp 1 r) s) = s.
Proof. unfold re_split. now rewrite split_from_concat. Qed.

(** The fuel of the loops never runs out: any fuel above the length of
    the remaining text gives the same result. *)
Lemma rep_fuel (sf : mstate -> list mstate) (f1 : nat) :
  forall f2 lo hi st,
    length (rest st) < f1 -> length (rest st) < f2 ->
    rep sf f1 lo hi st = rep sf f2 lo hi st.
Proof.
  induction f1 as [|f1 IH]; intros f2 lo hi st H1 H2; [lia|].
  destruct f2 as [|f2]; [lia|]. simpl. f_equal.
  assert (E : forall st',
             (if Nat.ltb (length (rest st')) (length (rest st))
              then rep sf f1 (Nat.pred lo) (option_map Nat.pred hi) st' else []) =
             (if Nat.ltb (length (rest st')) (length (rest st))
              then rep sf f2 (Nat.pred lo) (option_map Nat.pred hi) st' else [])).
  { intros st'. destruct (Nat.ltb_spec (length (rest st')) (length (rest st)));
      [apply IH; lia | reflexivity]. }
  destruct hi as [[|h]|]; [reflexivity | |]; now apply flat_map_ext.
Qed.

Lemma sub_from_fuel (r : regex) (repl : mstate -> text) (f1 : nat) :
  forall f2 bef s,
    length s < f1 -> length s < f2 ->
    sub_from f1 r repl bef s = sub_from f2 r repl bef s.
Proof.
  induction f1 as [|f1 IH]; intros f2 bef s H1 H2; [lia|].
  destruct f2 as [|f2]; [lia|]. simpl.
  assert (Hcopy : match s with
                  | [] => []
                  | c :: s' => c :: sub_from f1 r repl (Some c) s'
                  end =
                  match s with
                  | [] => []
                  | c :: s' => c :: sub_from f2 r repl (Some c) s'
                  end).
  { destruct s as [|c s']; [reflexivity|]. simpl in *. f_equal. apply IH; lia. }
  destruct (match_here r bef s) as [m|]; [|exact Hcopy].
  destruct (Nat.ltb_spec (length (rest m)) (length s)).
  - f_equal. apply IH; lia.
  - f_equal. exact Hcopy.
Qed.

Lemma split_from_fuel (r : regex) (f1 : nat) :
  forall f2 cur bef s,
    length s < f1 -> length s < f2 ->
    split_from f1 r cur bef s = split_from f2 r cur bef s.
Proof.
  induction f1 as [|f1 IH]; intros f2 cur bef s H1 H2; [lia|].
  destruct f2 as [|f2]; [lia|]. simpl.
  assert (Hcopy : match s with
                  | [] => [rev cur]
                  | c :: s' => split_from f1 r (c :: cur) (Some c) s'
                  end =
                  match s with
                  | [] => [rev cur]
                  | c :: s' => split_from f2 r (c :: cur) (Some c) s'
                  end).
  { destruct s as [|c s']; [reflexivity|]. simpl in *. apply IH; lia. }
  destruct (match_here r bef s) as [m|]; [|exact Hcopy].
  destruct (Nat.ltb_spec (length (rest m)) (length s)); [|exact Hcopy].
  do 2 f_equal. apply IH; lia.
Qed.

End EngineFacts.

(** ** Greedy runs of one character class *)

Section RepFacts.
Context `{Unicode}.

Variable p : char -> bool.

(** The equations of the matcher. *)
Lemma rmatch_set (st : mstate) :
  rmatch (Set_ p) st =
  match rest st with
  | c :: s => if p c then [eat c s st] else []
  | [] => []
  end.
Proof. reflexivity. Qed.

Lemma rmatch_cat (r1 r2 : regex) (st : mstate) :
  rmatch (Cat r1 r2) st = flat_map (rmatch r2) (rmatch r1 st).
Proof. reflexivity. Qed.

Lemma rmatch_rep (lo : nat) (hi : option nat) (r : regex) (st : mstate) :
  rmatch (Rep lo hi r) st = rep (rmatch r) (S (length (rest st))) lo hi st.
Proof. reflexivity. Qed.

Lemma rmatch_grp (i : nat) (r : regex) (st : mstate) :
  rmatch (Grp i r) st = map (capture i st) (rmatch r st).
Proof. reflexivity. Qed.

Lemma flat_map_one {A B : Type} (f : A -> list B) (x : A) : flat_map f [x] = f x.
Proof. simpl. apply app_nil_r. Qed.

Lemma rep_succ (sf : mstate -> list mstate) (fuel lo : nat) (st : mstate) :
  rep sf (S fuel) lo None st =
  flat_map (fun st' =>
              if Nat.ltb (length (rest st')) (length (rest st))
              then rep sf fuel (Nat.pred lo) None st' else [])
           (sf st)
  ++ (if Nat.eqb lo 0 then [st] else []).
Proof. reflexivity. Qed.

Lemma drop_length (s : text) : length (drop p s) <= length s.
Proof.
  induction s as [|c s IH]; simpl; [lia|]. destruct (p c); simpl; lia.
Qed.

Lemma drop_head (s : text) : head_in p (drop p s) = false.
Proof.
  induction s as [|c s IH]; simpl; [reflexivity|].
  destruct (p c) eqn:E; [exact IH | simpl; exact E].
Qed.

Lemma drop_none (s : text) : head_in p s = false -> drop p s = s.
Proof. destruct s as [|c s]; simpl; [reflexivity|]. now intros ->. Qed.

(** Followed by something that cannot start inside the run, a greedy
    repetition of a class gives the whole run, if it is long enough. *)
Lemma rep_set_then (K : mstate -> list mstate) :
  (forall bef c s g, p c = true -> K (MState bef (c :: s) g) = []) ->
  forall s fuel lo bef g,
    length s < fuel ->
    flat_map K (rep (rmatch (Set_ p)) fuel lo None (MState bef s g)) =
    if Nat.leb lo (run_length p s)
    then K (MState (run_before p bef s) (drop p s) g)
    else [].
Proof.
  intros HK. induction s as [|c s IH]; intros fuel lo bef g Hf;
    (destruct fuel as [|fuel]; [simpl in Hf; lia|]).
  - rewrite rep_succ, rmatch_set. simpl.
    destruct lo; simpl; [now rewrite app_nil_r | reflexivity].
  - rewrite rep_succ, rmatch_set.
    cbn [rest run_length run_before drop]. destruct (p c) eqn:Ec.
    + rewrite flat_map_one. unfold eat. cbn [rest groups length].
      assert (L : Nat.ltb (length s) (S (length s)) = true)
        by (apply Nat.ltb_lt; lia).
      rewrite L, flat_map_app, IH by (simpl in Hf; lia).
      assert (T : flat_map K (if Nat.eqb lo 0 then [MState bef (c :: s) g] else []) = []).
      { destruct (Nat.eqb lo 0); simpl; [|reflexivity].
        now rewrite HK, app_nil_r. }
      rewrite T, app_nil_r. destruct lo; reflexivity.
    + cbn [flat_map app].
      destruct lo; simpl; [now rewrite app_nil_r | reflexivity].
Qed.

(** Alone, it gives the whole run first. *)
Lemma rep_set_head (s : text) :
  forall fuel lo bef g,
    length s < fuel ->
    hd_error (rep (rmatch (Set_ p)) fuel lo None (MState bef s g)) =
    if Nat.leb lo (run_length p s)
    then Some (MState (run_before p bef s) (drop p s) g)
    else None.
Proof.
  induction s as [|c s IH]; intros fuel lo bef g Hf;
    (destruct fuel as [|fuel]; [simpl in Hf; lia|]).
  - rewrite rep_succ, rmatch_set. simpl. destruct lo; reflexivity.
  - rewrite rep_succ, rmatch_set.
    cbn [rest run_length run_before drop]. destruct (p c) eqn:Ec.
    + rewrite flat_map_one. unfold eat. cbn [rest groups length].
      assert (L : Nat.ltb (length s) (S (length s)) = true)
        by (apply Nat.ltb_lt; lia).
      rewrite L.
      assert (Hlt : length s < fuel) by (simpl in Hf; lia).
      assert (IH' := IH fuel (Nat.pred lo) (Some c) g Hlt).
      destruct (rep (rmatch (Set_ p)) fuel (Nat.pred lo) None (MState (Some c) s g))
        as [|x l] eqn:E.
      * simpl in IH'. destruct lo as [|lo]; simpl in *.
        -- discriminate IH'.
        -- rewrite <- IH'. reflexivity.
      * simpl in IH'. simpl. rewrite IH'. destruct lo; reflexivity.
    + cbn [flat_map app]. destruct lo; reflexivity.
Qed.

End RepFacts.

(** ** The character classes of the spacing rules *)

Lemma punct_cases (c : char) :
  is_punct c = true -> In c [44; 46; 59; 58; 33; 63]%N.
Proof.
  unfold is_punct, one_of. intros E. apply existsb_exists in E.
  destruct E as (x & Hx & E). apply N.eqb_eq in E. subst x. exact Hx.
Qed.

Lemma blank_cases (c : char) : is_blank c = true -> c = 32%N \/ c = 9%N.
Proof.
  unfold is_blank. intros E. apply orb_true_iff in E.
  destruct E as [E|E]; apply N.eqb_eq in E; auto.
Qed.

Lemma dot_is (c : char) : is_dot c = true -> c = 46%N.
Proof. apply N.eqb_eq. Qed.

Ltac by_cases H :=
  simpl in H;
  repeat (destruct H as [H|H]; [subst; reflexivity|]);
  try contradiction.

Lemma punct_not_space (c : char) : is_punct c = true -> is_space c = false.
Proof. intros E. apply punct_cases in E. by_cases E. Qed.

Lemma punct_not_alnum (c : char) : is_punct c = true -> is_alnum c = false.
Proof. intros E. apply punct_cases in E. by_cases E. Qed.

Lemma space_not_punct (c : char) : is_space c = true -> is_punct c = false.
Proof.
  intros E. destruct (is_punct c) eqn:P; [|reflexivity].
  apply punct_not_space in P. congruence.
Qed.

Lemma alnum_not_punct (c : char) : is_alnum c = true -> is_punct c = false.
Proof.
  intros E. destruct (is_punct c) eqn:P; [|reflexivity].
  apply punct_not_alnum in P. congruence.
Qed.

Lemma dot_punct (c : char) : is_dot c = true -> is_punct c = true.
Proof. intros E. apply dot_is in E. now subst. Qed.

Lemma space_not_dot (c : char) : is_space c = true -> is_dot c = false.
Proof.
  intros E. destruct (is_dot c) eqn:P; [|reflexivity].
  apply dot_punct, punct_not_space in P. congruence.
Qed.

Lemma alpha_alnum (c : char) : is_alpha c = true -> is_alnum c = true.
Proof. unfold is_alnum. now intros ->. Qed.

Lemma blank_space (c : char) : is_blank c = true -> is_space c = true.
Proof. intros E. destruct (blank_cases _ E); now subst. Qed.

Lemma blank_not_punct (c : char) : is_blank c = true -> is_punct c = false.
Proof. intros E. now apply space_not_punct, blank_space. Qed.

Lemma blank_not_alnum (c : char) : is_blank c = true -> is_alnum c = false.
Proof. intros E. destruct (blank_cases _ E); now subst. Qed.

(** ** The spacing patterns at the cursor *)

Section Hits.
Context `{Unicode}.

Lemma hd_error_map {A B : Type} (f : A -> B) (l : list A) :
  hd_error (map f l) = option_map f (hd_error l).
Proof. now destruct l. Qed.

Lemma consumed_one (a : char) (r : text) : consumed (a :: r) r = [a].
Proof. exact (consumed_app [a] r). Qed.

Lemma consumed_two (a b : char) (r : text) : consumed (a :: b :: r) r = [a; b].
Proof. exact (consumed_app [a; b] r). Qed.

(** Substitution is the scan of its step, when the step does not look
    behind the cursor. *)
Lemma sub_from_scan (r : regex) (repl : mstate -> text) (h : step) :
  (forall bef s, hit r repl bef s = h s) ->
  forall fuel bef s, sub_from fuel r repl bef s = scan fuel h s.
Proof.
  intros Hh. induction fuel as [|fuel IH]; intros bef s; simpl; [reflexivity|].
  rewrite <- (Hh bef s). unfold hit.
  destruct (match_here r bef s) as [m|].
  - destruct (Nat.ltb _ _); [now rewrite IH|].
    destruct s as [|c s']; [reflexivity | now rewrite IH].
  - destruct s as [|c s']; [reflexivity | now rewrite IH].
Qed.

Lemma hit_multispace (bef : option char) (s : text) :
  hit MULTISPACE_RE (const (str " ")) bef s = multispace_step s.
Proof.
  unfold hit, match_here, MULTISPACE_RE, at_least.
  rewrite rmatch_grp, rmatch_rep, hd_error_map.
  cbn [rest]. rewrite rep_set_head by lia.
  destruct s as [|c [|d r]]; simpl.
  - reflexivity.
  - destruct (is_blank c); reflexivity.
  - destruct (is_blank c); [|reflexivity].
    destruct (is_blank d); reflexivity.
Qed.

Lemma hit_space_before_punct (bef : option char) (s : text) :
  hit SPACE_BEFORE_PUNCT_RE g1 bef s = space_before_punct_step s.
Proof.
  unfold hit, match_here, SPACE_BEFORE_PUNCT_RE, plus.
  rewrite rmatch_grp, rmatch_cat, rmatch_rep. cbn [rest].
  rewrite rep_set_then.
  2:{ intros b c r g E. rewrite rmatch_grp, rmatch_set. cbn [rest].
      now rewrite (space_not_punct _ E). }
  2:{ lia. }
  destruct s as [|c s1]; [reflexivity|].
  cbn [run_length run_before drop space_before_punct_step].
  destruct (is_space c); [|reflexivity].
  cbn [Nat.leb]. rewrite rmatch_grp, rmatch_set. cbn [rest].
  destruct (drop is_space s1) as [|p r]; [reflexivity|].
  destruct (is_punct p); [|reflexivity].
  simpl. unfold g1, group. simpl. now rewrite consumed_one.
Qed.

Lemma hit_space_after (P Q : char -> bool) (bef : option char) (s : text) :
  hit (Cat (Grp 1 (Set_ P)) (Grp 2 (Set_ Q))) g1_sp_g2 bef s =
  space_after_step P Q s.
Proof.
  unfold hit, match_here.
  rewrite rmatch_grp, rmatch_cat, !rmatch_grp, rmatch_set. cbn [rest].
  destruct s as [|p [|x r]]; simpl.
  - reflexivity.
  - destruct (P p); reflexivity.
  - destruct (P p); [|reflexivity]. simpl.
    destruct (Q x); [|reflexivity]. simpl.
    unfold g1_sp_g2, group. simpl. now rewrite !consumed_one.
Qed.

Lemma hit_ellipsis (bef : option char) (s : text) :
  hit ELLIPSIS_RE (const (str "...")) bef s = ellipsis_step s.
Proof.
  unfold hit, match_here, ELLIPSIS_RE, star. cbn [cats].
  rewrite rmatch_grp, rmatch_cat, rmatch_set. cbn [rest].
  destruct s as [|c s1]; [reflexivity|].
  cbn [ellipsis_step]. destruct (is_dot c); [|reflexivity].
  rewrite flat_map_one, rmatch_cat, rmatch_rep. unfold eat. cbn [rest groups].
  rewrite rep_set_then.
  2:{ intros b x r g E. rewrite rmatch_cat, rmatch_set. cbn [rest].
      now rewrite (space_not_dot _ E). }
  2:{ lia. }
  cbn [Nat.leb]. rewrite rmatch_cat, rmatch_set. cbn [rest].
  destruct (drop is_space s1) as [|d s2]; [reflexivity|].
  destruct (is_dot d); [|reflexivity].
  rewrite flat_map_one, rmatch_cat, rmatch_rep. unfold eat. cbn [rest groups].
  rewrite rep_set_then.
  2:{ intros b x r g E. rewrite rmatch_set. cbn [rest].
      now rewrite (space_not_dot _ E). }
  2:{ lia. }
  cbn [Nat.leb]. rewrite rmatch_set. cbn [rest].
  destruct (drop is_space s2) as [|e s3]; [reflexivity|].
  destruct (is_dot e); reflexivity.
Qed.

End Hits.

(** ** Invariants of a scan *)

Section NoPair.
Variables A B : char -> bool.

Lemma np_app (a : bool) (x y : text) :
  np A B a (x ++ y) = np A B a x && np A B (after A a x) y.
Proof.
  revert a; induction x as [|c x IH]; intros a; simpl; [reflexivity|].
  now rewrite IH, andb_assoc.
Qed.

Lemma np_weaken (a : bool) (s : text) : np A B a s = true -> np A B false s = true.
Proof.
  destruct s as [|c s]; simpl; [reflexivity|].
  intros E. apply andb_true_iff in E. now destruct E as [_ ->].
Qed.

Variable h : step.

(** A scan whose steps keep an invariant [I] of the output context and
    the remaining input produces no forbidden pair. *)
Lemma scan_np (I : bool -> text -> Prop) :
  (forall a c s, I a (c :: s) -> h (c :: s) = None ->
     a && B c = false /\ I (A c) s) ->
  (forall a s out s', I a s -> h s = Some (out, s') ->
     length s' < length s /\ np A B a out = true /\ I (after A a out) s') ->
  forall fuel s a, length s < fuel -> I a s -> np A B a (scan fuel h s) = true.
Proof.
  intros Hcopy Hhit. induction fuel as [|fuel IH]; intros s a Hf Hi; [lia|].
  simpl. destruct (h s) as [[out s']|] eqn:E.
  - destruct (Hhit _ _ _ _ Hi E) as (L & N & I').
    apply Nat.ltb_lt in L. rewrite L, np_app, N. simpl.
    apply IH; [apply Nat.ltb_lt in L; lia | exact I'].
  - destruct s as [|c s]; [reflexivity|].
    destruct (Hcopy _ _ _ Hi E) as (N & I').
    simpl. rewrite N. simpl. apply IH; [simpl in Hf; lia | exact I'].
Qed.

(** A scan whose steps replace a match by itself changes nothing. *)
Lemma scan_id (J : text -> Prop) :
  (forall c s, J (c :: s) -> J s) ->
  (forall s out s', J s -> h s = Some (out, s') ->
     out ++ s' = s /\ length s' < length s /\ J s') ->
  forall fuel s, J s -> scan fuel h s = s.
Proof.
  intros Hcopy Hhit. induction fuel as [|fuel IH]; intros s Hj; [reflexivity|].
  simpl. destruct (h s) as [[out s']|] eqn:E.
  - destruct (Hhit _ _ _ Hj E) as (Es & L & J').
    apply Nat.ltb_lt in L. rewrite L, (IH _ J'). exact Es.
  - destruct s as [|c s]; [reflexivity|]. now rewrite (IH _ (Hcopy _ _ Hj)).
Qed.

End NoPair.

(** ** The spacing rules, one by one *)

Lemma np_tail (A B : char -> bool) (a : bool) (c : char) (s : text) :
  np A B a (c :: s) = true -> np A B false s = true.
Proof.
  simpl. intros E. apply andb_true_iff in E. destruct E as [_ E].
  exact (np_weaken _ _ _ _ E).
Qed.

(** After a space, a text without a space before a punctuation mark has
    no punctuation mark behind its leading spaces. *)
Lemma np_punct_ahead (s : text) :
  np is_space is_punct true s = true -> punct_ahead s = false.
Proof.
  unfold punct_ahead. induction s as [|c s IH]; simpl; [reflexivity|].
  intros E. apply andb_true_iff in E. destruct E as [E1 E2].
  apply negb_true_iff in E1.
  destruct (is_space c) eqn:Ec; [now apply IH | exact E1].
Qed.

Lemma drop_blank_np_space (s : text) :
  np is_space is_punct true s = true ->
  np is_space is_punct true (drop is_blank s) = true.
Proof.
  induction s as [|c s IH]; simpl; [reflexivity|].
  destruct (is_blank c) eqn:Ec; [|intros E; simpl; exact E].
  rewrite (blank_space _ Ec). intros E. apply andb_true_iff in E.
  destruct E as [_ E]. now apply IH.
Qed.

Lemma drop_blank_np_punct (s : text) :
  np is_punct is_alnum false s = true ->
  np is_punct is_alnum false (drop is_blank s) = true.
Proof.
  induction s as [|c s IH]; simpl; [reflexivity|].
  destruct (is_blank c) eqn:Ec; [|intros E; simpl; exact E].
  rewrite (blank_not_punct _ Ec). apply IH.
Qed.

(** *** [\s+([,.;:!?])] *)

Lemma space_before_punct_np (fuel : nat) (s : text) :
  length s < fuel ->
  np is_space is_punct false (scan fuel space_before_punct_step s) = true.
Proof.
  intros Hf.
  apply scan_np with (I := fun a s => a = true -> punct_ahead s = false);
    [| |exact Hf|discriminate].
  - intros a c r Hi Hn. unfold punct_ahead in *. simpl in *.
    destruct (is_space c) eqn:Ec.
    + rewrite (space_not_punct _ Ec), andb_false_r. split; [reflexivity|].
      intros _. destruct (drop is_space r) as [|p r']; [reflexivity|].
      destruct (is_punct p); [discriminate | reflexivity].
    + split; [|discriminate].
      destruct a; [apply (Hi eq_refl) | reflexivity].
  - intros a r out r' Hi Hs. unfold punct_ahead in *.
    destruct r as [|c r]; [discriminate|]. simpl in *.
    destruct (is_space c) eqn:Ec; [|discriminate].
    destruct (drop is_space r) as [|p r2] eqn:Ed; [discriminate|].
    destruct (is_punct p) eqn:Ep; [|discriminate].
    injection Hs as <- <-. repeat split.
    + pose proof (drop_length is_space r) as L. rewrite Ed in L. simpl in L. lia.
    + simpl. destruct a; [discriminate (Hi eq_refl) | reflexivity].
    + simpl. now rewrite (punct_not_space _ Ep).
Qed.

Lemma space_before_punct_id (fuel : nat) (s : text) :
  np is_space is_punct false s = true ->
  scan fuel space_before_punct_step s = s.
Proof.
  apply scan_id with (J := fun s => np is_space is_punct false s = true).
  - intros c r. apply np_tail.
  - intros r out r' Hj Hs. exfalso.
    destruct r as [|c r]; [discriminate|]. simpl in *.
    destruct (is_space c) eqn:Ec; [|discriminate].
    apply np_punct_ahead in Hj. unfold punct_ahead in Hj.
    destruct (drop is_space r) as [|p r2]; [discriminate|].
    rewrite Hj in Hs. discriminate.
Qed.

(** *** [([,.;:!?])([A-Za-z0-9])] and [(\.)([A-Za-z])] *)

Lemma space_after_punct_np (fuel : nat) (s : text) :
  length s < fuel ->
  np is_punct is_alnum false (scan fuel (space_after_step is_punct is_alnum) s) = true.
Proof.
  intros Hf.
  apply scan_np with (I := fun a s => a = true -> head_in is_alnum s = false);
    [| |exact Hf|discriminate].
  - intros a c r Hi Hn. simpl in *. split.
    + destruct a; [apply (Hi eq_refl) | reflexivity].
    + intros Ec. destruct r as [|x r]; [reflexivity|]. simpl.
      rewrite Ec in Hn. simpl in Hn. destruct (is_alnum x); [discriminate | reflexivity].
  - intros a r out r' Hi Hs.
    destruct r as [|p [|x r]]; try discriminate. simpl in Hs.
    destruct (is_punct p) eqn:Ep; [|discriminate].
    destruct (is_alnum x) eqn:Ex; [|discriminate].
    injection Hs as <- <-. repeat split.
    + simpl. lia.
    + simpl. rewrite (punct_not_alnum _ Ep), !andb_false_r. reflexivity.
    + simpl. now rewrite (alnum_not_punct _ Ex).
Qed.

Lemma space_after_punct_keeps (fuel : nat) (s : text) :
  length s < fuel ->
  np is_space is_punct false s = true ->
  np is_space is_punct false (scan fuel (space_after_step is_punct is_alnum) s) = true.
Proof.
  intros Hf Hs.
  apply scan_np with (I := fun a s => np is_space is_punct a s = true);
    [| |exact Hf|exact Hs].
  - intros a c r Hi _. simpl in Hi. apply andb_true_iff in Hi.
    destruct Hi as [E1 E2]. split; [now apply negb_true_iff | exact E2].
  - intros a r out r' Hi Hh.
    destruct r as [|p [|x r]]; try discriminate. simpl in Hh.
    destruct (is_punct p) eqn:Ep; [|discriminate].
    destruct (is_alnum x) eqn:Ex; [|discriminate].
    injection Hh as <- <-. simpl in Hi.
    rewrite !andb_true_iff in Hi. destruct Hi as (E1 & E2 & E3).
    repeat split.
    + simpl. lia.
    + simpl. rewrite E1, (alnum_not_punct _ Ex), !andb_false_r. reflexivity.
    + simpl. exact E3.
Qed.

Lemma space_after_id (P Q : char -> bool) (fuel : nat) (s : text) :
  (forall c, P c = true -> is_punct c = true) ->
  (forall c, Q c = true -> is_alnum c = true) ->
  np is_punct is_alnum false s = true ->
  scan fuel (space_after_step P Q) s = s.
Proof.
  intros HP HQ.
  apply scan_id with (J := fun s => np is_punct is_alnum false s = true).
  - intros c r. apply np_tail.
  - intros r out r' Hj Hh. exfalso.
    destruct r as [|p [|x r]]; try discriminate. simpl in Hh.
    destruct (P p) eqn:Ep; [|discriminate].
    destruct (Q x) eqn:Ex; [|discriminate].
    simpl in Hj. rewrite (HP _ Ep), (HQ _ Ex) in Hj. discriminate.
Qed.

(** *** [[ \t]{2,}] *)

Lemma multispace_np (fuel : nat) (s : text) :
  length s < fuel ->
  np is_blank is_blank false (scan fuel multispace_step s) = true.
Proof.
  intros Hf.
  apply scan_np with (I := fun a s => a = true -> head_in is_blank s = false);
    [| |exact Hf|discriminate].
  - intros a c r Hi Hn. simpl in *. split.
    + destruct a; [apply (Hi eq_refl) | reflexivity].
    + intros Ec. destruct r as [|x r]; [reflexivity|]. simpl.
      rewrite Ec in Hn. simpl in Hn. destruct (is_blank x); [discriminate | reflexivity].
  - intros a r out r' Hi Hh.
    destruct r as [|c [|d r]]; try discriminate. simpl in Hh.
    destruct (is_blank c) eqn:Ec; [|discriminate].
    destruct (is_blank d) eqn:Ed; [|discriminate].
    injection Hh as <- <-. repeat split.
    + pose proof (drop_length is_blank r). simpl. lia.
    + simpl. destruct a; [|reflexivity]. simpl in Hi. rewrite (Hi eq_refl) in Ec.
      discriminate.
    + intros _. apply drop_head.
Qed.

Lemma multispace_keeps_space (fuel : nat) (s : text) :
  length s < fuel ->
  np is_space is_punct false s = true ->
  np is_space is_punct false (scan fuel multispace_step s) = true.
Proof.
  intros Hf Hs.
  apply scan_np with (I := fun a s => np is_space is_punct a s = true);
    [| |exact Hf|exact Hs].
  - intros a c r Hi _. simpl in Hi. apply andb_true_iff in Hi.
    destruct Hi as [E1 E2]. split; [now apply negb_true_iff | exact E2].
  - intros a r out r' Hi Hh.
    destruct r as [|c [|d r]]; try discriminate. simpl in Hh.
    destruct (is_blank c) eqn:Ec; [|discriminate].
    destruct (is_blank d) eqn:Ed; [|discriminate].
    injection Hh as <- <-. simpl in Hi.
    rewrite !andb_true_iff in Hi. destruct Hi as (E1 & E2 & E3).
    rewrite (blank_space _ Ed) in E3.
    repeat split.
    + pose proof (drop_length is_blank r). simpl. lia.
    + simpl. now rewrite andb_false_r.
    + simpl. now apply drop_blank_np_space.
Qed.

Lemma multispace_keeps_punct (fuel : nat) (s : text) :
  length s < fuel ->
  np is_punct is_alnum false s = true ->
  np is_punct is_alnum false (scan fuel multispace_step s) = true.
Proof.
  intros Hf Hs.
  apply scan_np with (I := fun a s => np is_punct is_alnum a s = true);
    [| |exact Hf|exact Hs].
  - intros a c r Hi _. simpl in Hi. apply andb_true_iff in Hi.
    destruct Hi as [E1 E2]. split; [now apply negb_true_iff | exact E2].
  - intros a r out r' Hi Hh.
    destruct r as [|c [|d r]]; try discriminate. simpl in Hh.
    destruct (is_blank c) eqn:Ec; [|discriminate].
    destruct (is_blank d) eqn:Ed; [|discriminate].
    injection Hh as <- <-. simpl in Hi.
    rewrite !andb_true_iff in Hi. destruct Hi as (E1 & E2 & E3).
    rewrite (blank_not_punct _ Ed) in E3.
    repeat split.
    + pose proof (drop_length is_blank r). simpl. lia.
    + simpl. now rewrite andb_false_r.
    + simpl. now apply drop_blank_np_punct.
Qed.

Lemma multispace_id (fuel : nat) (s : text) :
  np is_blank is_blank false s = true -> scan fuel multispace_step s = s.
Proof.
  apply scan_id with (J := fun s => np is_blank is_blank false s = true).
  - intros c r. apply np_tail.
  - intros r out r' Hj Hh. exfalso.
    destruct r as [|c [|d r]]; try discriminate. simpl in Hh.
    destruct (is_blank c) eqn:Ec; [|discriminate].
    destruct (is_blank d) eqn:Ed; [|discriminate].
    simpl in Hj. rewrite Ec, Ed in Hj. discriminate.
Qed.

(** *** [\.\s*\.\s*\.] *)

(** Where no space stands before a punctuation mark, a dot behind
    optional spaces is a dot at the cursor. *)
Lemma drop_space_dot (a : bool) (s : text) (d : char) (r : text) :
  np is_space is_punct a s = true ->
  drop is_space s = d :: r -> is_dot d = true -> s = d :: r.
Proof.
  intros Hn Hd Ed. destruct s as [|c s]; [discriminate|]. simpl in *.
  destruct (is_space c) eqn:Ec; [|exact Hd]. exfalso.
  apply andb_true_iff in Hn. destruct Hn as [_ Hn].
  apply np_punct_ahead in Hn. unfold punct_ahead in Hn.
  rewrite Hd, (dot_punct _ Ed) in Hn. discriminate.
Qed.

Lemma ellipsis_id (fuel : nat) (s : text) :
  np is_space is_punct false s = true -> scan fuel ellipsis_step s = s.
Proof.
  apply scan_id with (J := fun s => np is_space is_punct false s = true).
  - intros c r. apply np_tail.
  - intros r out r' Hj Hh.
    destruct r as [|c s1]; [discriminate|]. simpl in Hh.
    destruct (is_dot c) eqn:Ec; [|discriminate].
    destruct (drop is_space s1) as [|d s2] eqn:E1; [discriminate|].
    destruct (is_dot d) eqn:Ed; [|discriminate].
    destruct (drop is_space s2) as [|e s3] eqn:E2; [discriminate|].
    destruct (is_dot e) eqn:Ee; [|discriminate].
    injection Hh as <- <-.
    simpl in Hj.
    pose proof (drop_space_dot _ _ Hj E1 Ed) as ->.
    simpl in Hj. apply andb_true_iff in Hj. destruct Hj as [_ Hj].
    pose proof (drop_space_dot _ _ Hj E2 Ee) as ->.
    apply dot_is in Ec, Ed, Ee. subst. repeat split.
    + simpl. lia.
    + simpl in Hj. exact (np_weaken _ _ _ _ Hj).
Qed.

(** ** Patch applier: the loop and its state *)

Section PatcherFacts.
Context `{Unicode}.

Lemma text_eqb_eq (a b : text) : text_eqb a b = true <-> a = b.
Proof.
  revert b; induction a as [|x a IH]; intros [|y b]; simpl; split; intros E;
    try reflexivity; try discriminate.
  - apply andb_true_iff in E; destruct E as [E1 E2].
    apply N.eqb_eq in E1; apply IH in E2; congruence.
  - injection E as -> ->. rewrite N.eqb_refl; simpl. now apply IH.
Qed.

Lemma text_eqb_refl (a : text) : text_eqb a a = true.
Proof. now apply text_eqb_eq. Qed.

Lemma text_eqb_neq (a b : text) : a <> b -> text_eqb a b = false.
Proof.
  intros N; destruct (text_eqb a b) eqn:E; [|reflexivity].
  apply text_eqb_eq in E; contradiction.
Qed.

Lemma apply_loop_app (t : text) (s : Z) (ms1 ms2 : list json) :
  apply_loop t s (ms1 ++ ms2) =
  (st <- apply_loop t s ms1 ;; apply_loop (fst st) (snd st) ms2).
Proof.
  revert t s; induction ms1 as [|m ms1 IH]; intros t s; simpl; [reflexivity|].
  destruct (loop_body t s m) as [[t' s']|e]; simpl; [apply IH | reflexivity].
Qed.

(** A match of another issue type, or without candidates, is passed over. *)
Lemma loop_body_other (t : text) (s : Z) (m : json) :
  other_issue m -> loop_body t s m = Ok (t, s).
Proof.
  intros (v & Hv & Hs). unfold loop_body, issue_type in *.
  destruct m as [| | | | |l|d]; try discriminate. simpl.
  destruct (dict_get (str "rule") d) as [[| | | | | |rule]|]; try discriminate;
    simpl; injection Hv as <-; rewrite ?Hs; reflexivity.
Qed.

Lemma loop_body_no_candidates (t : text) (s : Z) (m : json) :
  misspelling m -> candidates m = Some [] -> loop_body t s m = Ok (t, s).
Proof.
  intros (v & Hv & Hs) Hc. unfold loop_body, issue_type, candidates in *.
  destruct m as [| | | | |l|d]; try discriminate. simpl.
  destruct (dict_get (str "rule") d) as [[| | | | | |rule]|]; try discriminate;
    simpl; injection Hv as <-; [|discriminate Hs]; rewrite Hs; simpl;
    destruct (dict_get (str "replacements") d) as [r|]; simpl; try reflexivity;
    destruct r as [|b|z|n dn|x|l|d']; simpl in *;
    try reflexivity; try (injection Hc as ->; reflexivity).
  all: try (destruct b; [discriminate|reflexivity]).
  all: try (destruct (negb _); [discriminate|reflexivity]).
  all: try (destruct x; [reflexivity|discriminate]).
  all: try (destruct d'; [reflexivity|discriminate]).
Qed.

(** What the body does with a misspelling match that has a first
    candidate and integer offset and length: the two guards, then the
    edit. *)
Lemma loop_body_misspelling (t : text) (s : Z) (m : json) (o l : Z) (r : text) :
  misspelling m -> first_replacement m = Some r ->
  int_field m "offset" = Some o -> int_field m "length" = Some l ->
  loop_body t s m =
  (let start := (o + s)%Z in
   let end_ := (start + l)%Z in
   let orig := slice t start end_ in
   if existsb (N.eqb PH) orig then Ok (t, s)
   else if text_eqb (str_lower orig) (str_lower r) && negb (text_eqb orig r)
   then Ok (t, s)
   else Ok (slice_to t start ++ r ++ slice_from t end_, s + (len r - l))%Z).
Proof.
  intros (v & Hv & Hs) Hr Ho Hl.
  unfold issue_type, first_replacement, candidates, int_field, field in *.
  destruct m as [| | | | |x|d]; try discriminate.
  destruct (dict_get (str "replacements") d) as [[| | | | |cs|]|] eqn:Er;
    try discriminate;
    try (destruct (truthy _); discriminate).
  destruct cs as [|[| | | | | |e] cs]; try discriminate.
  destruct (dict_get (str "value") e) as [[| | | |r'| |]|] eqn:Ev; try discriminate.
  injection Hr as ->.
  destruct (dict_get (str "offset") d) as [[| |o'| | | |]|] eqn:Eo; try discriminate.
  injection Ho as ->.
  destruct (dict_get (str "length") d) as [[| |l'| | | |]|] eqn:El; try discriminate.
  injection Hl as ->.
  unfold loop_body, get, item. rewrite Er, Eo, El.
  destruct (dict_get (str "rule") d) as [[| | | | | |rule]|]; try discriminate;
    injection Hv as <-; [|discriminate Hs].
  cbn [bind]. rewrite Hs.
  cbn [truthy negb item bind operand as_number add first the_str the_int slice_num].
  unfold item. rewrite Ev. cbn [bind].
  destruct (existsb _ _); [reflexivity|].
  cbn [bind the_str the_int].
  destruct (_ && _); reflexivity.
Qed.

Lemma finish_app (t : text) (pre post : list json) (m : json) (t1 : text) (s1 : Z)
    (st : text * Z) :
  apply_loop t 0 pre = Ok (t1, s1) -> loop_body t1 s1 m = Ok st ->
  apply_misspellings_only t (pre ++ m :: post) =
  finish (apply_loop (fst st) (snd st) post).
Proof.
  intros Hpre Hm. unfold apply_misspellings_only, finish.
  rewrite apply_loop_app, Hpre. simpl. rewrite Hm. reflexivity.
Qed.

Lemma clip_inside (n i : Z) : (0 <= i <= n)%Z -> clip n i = i.
Proof.
  intros Hi. unfold clip. destruct (Z.ltb_spec i 0); lia.
Qed.

Lemma slice_inside (t : text) (a b : Z) :
  (0 <= a)%Z -> (a <= b)%Z -> (b <= len t)%Z ->
  slice_to t a = firstn (Z.to_nat a) t /\
  slice_from t b = skipn (Z.to_nat b) t /\
  len (slice t a b) = (b - a)%Z.
Proof.
  intros Ha Hab Hb. unfold slice_to, slice_from, slice, len in *.
  rewrite !clip_inside by lia.
  repeat split.
  - simpl. now rewrite Z.sub_0_r.
  - rewrite firstn_all2; [reflexivity|]. rewrite length_skipn. lia.
  - rewrite length_firstn, length_skipn. lia.
Qed.

End PatcherFacts.

Section PatcherClaims.
Context `{Unicode}.


(** C5.  Case-only skip.  A match whose targeted substring
    [t1[o+s1 : o+s1+l]] and first candidate [r] are equal after
    lowercasing but not equal as they are is passed over, whatever its
    issue type: the text and the shift stay as they were for the matches
    after it. *)
Theorem case_only_skip (t : text) (pre post : list json) (m : json)
    (t1 : text) (s1 o l : Z) (r : text) :
  apply_loop t 0 pre = Ok (t1, s1) ->
  (exists v, issue_type m = Some v) ->
  first_replacement m = Some r ->
  int_field m "offset" = Some o -> int_field m "length" = Some l ->
  case_only (slice t1 (o + s1) (o + s1 + l)) r ->
  loop_body t1 s1 m = Ok (t1, s1) /\
  apply_misspellings_only t (pre ++ m :: post) = finish (apply_loop t1 s1 post).
Proof.
  intros Hpre (v & Hv) Hr Ho Hl (E1 & E2).
  assert (Hb : loop_body t1 s1 m = Ok (t1, s1)).
  { destruct (is_str v "misspelling") eqn:Es.
    - rewrite (@loop_body_misspelling _ t1 s1 m o l r); try assumption.
      + cbv zeta. destruct (existsb _ _); [reflexivity|].
        rewrite E1, text_eqb_refl, (text_eqb_neq E2). reflexivity.
      + exists v; auto.
    - apply loop_body_other. exists v; auto. }
  split; [exact Hb|]. eapply finish_app with (st := (t1, s1)); eassumption.
Qed.

(** A span that contains the delimiter U+E000 is passed over. *)
Lemma delimiter_in_span_skipped (t : text) (s : Z) (m : json) (o l : Z) (r : text) :
  (exists v, issue_type m = Some v) ->
  first_replacement m = Some r ->
  int_field m "offset" = Some o -> int_field m "length" = Some l ->
  In PH (slice t (o + s) (o + s + l)) ->
  loop_body t s m = Ok (t, s).
Proof.
  intros (v & Hv) Hr Ho Hl Hin.
  destruct (is_str v "misspelling") eqn:Es.
  - rewrite (@loop_body_misspelling _ t s m o l r); try assumption.
    + cbv zeta.
      assert (E : existsb (N.eqb PH) (slice t (o + s) (o + s + l)) = true).
      { apply existsb_exists. exists PH. split; [assumption | apply N.eqb_refl]. }
      now rewrite E.
    + exists v; auto.
  - apply loop_body_other. exists v; auto.
Qed.

Lemma loop_body_total (t : text) (s : Z) (m : json) :
  match_record m -> rule_record m -> exists st, loop_body t s m = Ok st.
Proof.
  intros (d & -> & (o & Ho) & (l & Hl) & Hr) Hrule.
  assert (Hit : exists v, issue_type (JDict d) = Some v).
  { unfold rule_record, field, issue_type in *.
    destruct (dict_get (str "rule") d) as [[| | | | | |rule]|]; try contradiction; eauto. }
  destruct Hit as (v & Hv).
  destruct (is_str v "misspelling") eqn:Es.
  2:{ exists (t, s). apply loop_body_other. exists v; auto. }
  assert (Hm : misspelling (JDict d)) by (exists v; auto).
  assert (Hc : candidates (JDict d) = Some [] \/
               exists r, first_replacement (JDict d) = Some r).
  { unfold first_replacement, candidates.
    destruct (dict_get (str "replacements") d) as [[| | | | |es|]|];
      try (rewrite Hr; now left); try now left.
    destruct es as [|e es]; [now left|]. right.
    inversion Hr as [|? ? (de & r & -> & Hval) _]; subst.
    exists r. now rewrite Hval. }
  destruct Hc as [Hc | (r & Hfr)].
  - exists (t, s). now apply loop_body_no_candidates.
  - rewrite (@loop_body_misspelling _ t s (JDict d) o l r); try assumption.
    + cbv zeta. destruct (existsb _ _); [eauto|].
      destruct (_ && _); eauto.
    + unfold int_field, field. now rewrite Ho.
    + unfold int_field, field. now rewrite Hl.
Qed.

(** C10, amended.  On a list of match records whose rule, when there is
    one, is a record, [apply_misspellings_only] returns a string,
    whatever the offsets and lengths are: negative, beyond the text,
    overlapping or out of order. *)
Theorem apply_misspellings_only_total (t : text) (matches : list json) :
  Forall match_record matches -> Forall rule_record matches ->
  exists t', apply_misspellings_only t matches = Ok t'.
Proof.
  intros Hm Hr. unfold apply_misspellings_only.
  assert (G : forall s, exists st, apply_loop t s matches = Ok st).
  { revert t. induction Hm as [|m ms Hm1 Hm2 IH]; intros t s; simpl; [eauto|].
    inversion Hr as [|? ? Hr1 Hr2]; subst.
    destruct (@loop_body_total t s m Hm1 Hr1) as ([t' s'] & ->). simpl.
    apply IH; assumption. }
  destruct (G 0%Z) as (st & ->). simpl. eauto.
Qed.

End PatcherClaims.

(** ** The loop over the chunks *)

Section PipelineFacts.
Context `{Unicode}.
Variable World : Type.
Variable call_lt : World -> text -> result json * World.

Lemma process_chunks_acc (chunks out : list text) (err : list diag) (w : World) :
  process_chunks call_lt chunks out err w =
  (out ++ fst (fst (process_chunks call_lt chunks [] [] w)),
   err ++ snd (fst (process_chunks call_lt chunks [] [] w)),
   snd (process_chunks call_lt chunks [] [] w)).
Proof.
  revert out err w; induction chunks as [|ch chunks IH]; intros out err w; simpl.
  - now rewrite !app_nil_r.
  - destruct (call_lt w ch) as [answer w'].
    destruct (correct ch answer) as [ch'|e].
    + rewrite (IH (out ++ [ch'])), (IH [ch']). simpl.
      now rewrite <- app_assoc.
    + rewrite (IH (out ++ [ch])), (IH [ch] [SpellFixError e]). simpl.
      now rewrite <- !app_assoc.
Qed.

Lemma process_chunks_app (pre post : list text) (w : World) :
  process_chunks call_lt (pre ++ post) [] [] w =
  (let '(o1, e1, w1) := process_chunks call_lt pre [] [] w in
   let '(o2, e2, w2) := process_chunks call_lt post [] [] w1 in
   (o1 ++ o2, e1 ++ e2, w2)).
Proof.
  revert w; induction pre as [|ch pre IH]; intros w; simpl.
  - now destruct (process_chunks call_lt post [] [] w) as [[o2 e2] w2].
  - destruct (call_lt w ch) as [answer w'].
    destruct (correct ch answer) as [ch'|e];
      rewrite process_chunks_acc, IH;
      [rewrite (process_chunks_acc pre [ch']) | rewrite (process_chunks_acc pre [ch] [SpellFixError e])];
      destruct (process_chunks call_lt pre [] [] w') as [[o1 e1] w1]; simpl;
      destruct (process_chunks call_lt post [] [] w1) as [[o2 e2] w2]; reflexivity.
Qed.

Lemma process_chunks_each (chunks : list text) (w : World) :
  Forall2 emitted chunks (fst (fst (process_chunks call_lt chunks [] [] w))).
Proof.
  revert w; induction chunks as [|ch chunks IH]; intros w; simpl; [constructor|].
  destruct (call_lt w ch) as [answer w'].
  destruct (correct ch answer) as [ch'|e] eqn:E; rewrite process_chunks_acc; simpl;
    constructor; try apply IH.
  - right. eauto.
  - now left.
Qed.

(** The loop does for every chunk what [processed] says. *)
Lemma process_chunks_processed (chunks : list text) (w : World) :
  processed call_lt w chunks
    (fst (fst (process_chunks call_lt chunks [] [] w)))
    (snd (fst (process_chunks call_lt chunks [] [] w)))
    (snd (process_chunks call_lt chunks [] [] w)).
Proof.
  revert w; induction chunks as [|ch chunks IH]; intros w; simpl; [constructor|].
  destruct (call_lt w ch) as [answer w'] eqn:Ec.
  destruct (correct ch answer) as [ch'|e] eqn:E; rewrite process_chunks_acc; simpl.
  - unfold correct in E. destruct answer as [resp|e0]; [|discriminate E].
    cbn [bind] in E.
    destruct (get resp "matches" (JList [])) as [matches|e1] eqn:G; [|discriminate E].
    cbn [bind] in E.
    destruct (iterate matches) as [ms|e2] eqn:I; [|discriminate E].
    cbn [bind] in E.
    eapply processed_corrected; eauto.
  - eapply processed_failed; eauto.
Qed.

(** C9.  Per-chunk failure containment.  When the body of the [try]
    raises for the chunk [ch], which stands after the chunks [pre] and
    before the chunks [post] (the request itself raises, or its answer
    cannot be used), the loop appends [ch] itself to the output chunks
    and one line to the error stream, and goes on with [post] from the
    world that the request left: the output chunks and the diagnostics
    of [pre] come before, those of [post] after, one output chunk for
    every chunk.  The chunks before and after are processed as if
    nothing had failed: each is sent to the service once, in order, and
    where its answer goes through, its output chunk is the result of
    [apply_misspellings_only] on the matches of that answer.  A request
    that raises is such a failure. *)
Theorem chunk_failure_contained (pre post : list text) (ch : text) (w w1 w1' w2 : World)
    (o1 o2 : list text) (e1 e2 : list diag) (answer : result json) (e : exn) :
  process_chunks call_lt pre [] [] w = (o1, e1, w1) ->
  call_lt w1 ch = (answer, w1') ->
  correct ch answer = Raise e ->
  process_chunks call_lt post [] [] w1' = (o2, e2, w2) ->
  process_chunks call_lt (pre ++ ch :: post) [] [] w =
    (o1 ++ ch :: o2, e1 ++ SpellFixError e :: e2, w2)
  /\ Forall2 emitted pre o1 /\ Forall2 emitted post o2
  /\ (forall e', correct ch (Raise e') = Raise e')
  /\ processed call_lt w pre o1 e1 w1
  /\ processed call_lt w1' post o2 e2 w2.
Proof.
  intros Hpre Hcall Hfail Hpost. repeat split.
  - rewrite process_chunks_app, Hpre. simpl. rewrite Hcall, Hfail.
    rewrite process_chunks_acc, Hpost. reflexivity.
  - generalize (process_chunks_each pre w). now rewrite Hpre.
  - generalize (process_chunks_each post w1'). now rewrite Hpost.
  - generalize (process_chunks_processed pre w). now rewrite Hpre.
  - generalize (process_chunks_processed post w1'). now rewrite Hpost.
Qed.

End PipelineFacts.

(** ** Chunker *)

Section ChunkerFacts.
Context `{Unicode}.
Variable MAX_CHUNK_CHARS : Z.

Lemma chunk_loop_concat (parts chunks : list text) (cur : text) :
  concat (chunk_loop MAX_CHUNK_CHARS parts chunks cur) =
  concat chunks ++ cur ++ concat parts.
Proof.
  revert chunks cur; induction parts as [|p parts IH]; intros chunks cur; simpl.
  - destruct cur as [|c cur]; simpl.
    + now rewrite app_nil_r.
    + rewrite concat_app. simpl. now rewrite !app_nil_r.
  - destruct (_ && _); rewrite IH.
    + rewrite concat_app. simpl. now rewrite app_nil_r, <- !app_assoc.
    + now rewrite <- !app_assoc.
Qed.

(** The chunks are the concatenations of consecutive groups of pieces;
    [g0] is the group of the chunk being filled. *)
Lemma chunk_loop_groups (parts chunks : list text) (cur : text) (g0 : list text) :
  concat g0 = cur ->
  exists groups : list (list text),
    concat groups = g0 ++ parts /\
    chunk_loop MAX_CHUNK_CHARS parts chunks cur =
      chunks ++ filter nonempty (map (@concat char) groups).
Proof.
  revert chunks cur g0; induction parts as [|p parts IH]; intros chunks cur g0 Hg; simpl.
  - exists [g0]. simpl. rewrite !app_nil_r, Hg.
    destruct (nonempty cur); split; try reflexivity. now rewrite app_nil_r.
  - destruct ((len cur + len p >? MAX_CHUNK_CHARS)%Z && nonempty cur) eqn:E.
    + apply andb_true_iff in E. destruct E as [_ Hne].
      destruct (IH (chunks ++ [cur]) p [p]) as (groups & E1 & E2).
      { simpl. now rewrite app_nil_r. }
      exists (g0 :: groups). split.
      * simpl. now rewrite E1.
      * rewrite E2. simpl. rewrite Hg, Hne. now rewrite <- app_assoc.
    + destruct (IH chunks (cur ++ p) (g0 ++ [p])) as (groups & E1 & E2).
      { rewrite concat_app, Hg. simpl. now rewrite app_nil_r. }
      exists groups. split; [|exact E2]. now rewrite E1, <- app_assoc.
Qed.

Lemma chunk_loop_fits (all parts chunks : list text) (cur : text) :
  incl parts all -> Forall (fits MAX_CHUNK_CHARS all) chunks -> cur = [] \/ fits MAX_CHUNK_CHARS all cur ->
  Forall (fits MAX_CHUNK_CHARS all) (chunk_loop MAX_CHUNK_CHARS parts chunks cur).
Proof.
  revert chunks cur; induction parts as [|p parts IH]; intros chunks cur Hin Hch Hcur; simpl.
  - destruct cur as [|c cur]; simpl; [assumption|].
    apply Forall_app. split; [assumption|]. constructor; [|constructor].
    destruct Hcur as [Hcur|Hcur]; [discriminate | assumption].
  - assert (Hp : In p all) by (apply Hin; now left).
    assert (Hin' : incl parts all) by (intros x Hx; apply Hin; now right).
    destruct ((len cur + len p >? MAX_CHUNK_CHARS)%Z && nonempty cur) eqn:E.
    + apply andb_true_iff in E. destruct E as [_ Hne].
      apply IH; try assumption.
      * apply Forall_app. split; [assumption|]. constructor; [|constructor].
        destruct Hcur as [->|Hcur]; [discriminate | assumption].
      * right. right. exact Hp.
    + apply IH; try assumption. right.
      apply andb_false_iff in E. destruct E as [E|E].
      * left. unfold len in *. rewrite length_app.
        destruct (Z.gtb_spec (Z.of_nat (length cur) + Z.of_nat (length p)) MAX_CHUNK_CHARS);
          [discriminate | lia].
      * destruct cur; [|discriminate]. right. exact Hp.
Qed.

Lemma alternate_in {A : Type} (l : list A) (x : A) :
  In x l -> In x (alternate l) \/ In x (alternate (tl l)).
Proof.
  induction l as [|a l IH]; intros Hin; [contradiction|].
  destruct Hin as [->|Hin].
  - left. destruct l; now left.
  - destruct (IH Hin) as [G|G]; [now right|].
    left. destruct l as [|b l]; [contradiction|]. now right.
Qed.

(** C7, amended.  Chunking loses nothing, every chunk is made of whole
    consecutive pieces of the split (so no paragraph is cut), and a chunk
    longer than the bound is a single piece: a paragraph or a blank-line
    boundary that alone exceeds the bound. *)
Theorem chunk_paragraphs_lossless (t : text) :
  concat (chunk_paragraphs MAX_CHUNK_CHARS t) = t
  /\ (exists groups : list (list text),
        concat groups = pieces t /\
        chunk_paragraphs MAX_CHUNK_CHARS t = filter nonempty (map (@concat char) groups))
  /\ (forall c, In c (chunk_paragraphs MAX_CHUNK_CHARS t) ->
        (len c > MAX_CHUNK_CHARS)%Z ->
        In c (paragraphs t) \/ In c (boundaries t)).
Proof.
  unfold chunk_paragraphs. repeat split.
  - rewrite chunk_loop_concat. simpl. apply re_split_concat.
  - destruct (@chunk_loop_groups (pieces t) [] [] []) as (groups & E1 & E2);
      [reflexivity|].
    exists groups. split; [exact E1 | exact E2].
  - intros c Hc Hlen.
    assert (F : Forall (fits MAX_CHUNK_CHARS (pieces t))
                  (chunk_loop MAX_CHUNK_CHARS (pieces t) [] [])).
    { apply chunk_loop_fits; [apply incl_refl | constructor | now left]. }
    rewrite Forall_forall in F. destruct (F c Hc) as [G|G]; [lia|].
    now apply alternate_in.
Qed.

End ChunkerFacts.

(** ** Spacing cleanup *)

Section Cleanup.
Context `{Unicode}.

Lemma re_sub_scan (r : regex) (repl : mstate -> text) (h : step) (s : text) :
  (forall bef s', hit r repl bef s' = h s') ->
  re_sub r repl s = scan (S (length s)) h s.
Proof. intros Hh. unfold re_sub. now apply sub_from_scan. Qed.

(** A text is clean when no space stands before a punctuation mark, no
    punctuation mark before a letter or digit, and no two blanks side by
    side. *)
Lemma cleanup_fixes_clean (u : text) :
  np is_space is_punct false u = true ->
  np is_punct is_alnum false u = true ->
  np is_blank is_blank false u = true ->
  safe_spacing_cleanup u = u.
Proof.
  intros H1 H2 H3.
  unfold safe_spacing_cleanup, SPACE_AFTER_PUNCT_RE, SPACE_AFTER_DOT_RE.
  rewrite (@re_sub_scan _ _ _ u hit_ellipsis), (@ellipsis_id _ _ H1).
  rewrite (@re_sub_scan _ _ _ u hit_space_before_punct), (@space_before_punct_id _ _ H1).
  rewrite (@re_sub_scan _ _ _ u (hit_space_after is_punct is_alnum)),
    (@space_after_id is_punct is_alnum _ _ (fun c E => E) (fun c E => E) H2).
  rewrite (@re_sub_scan _ _ _ u (hit_space_after is_dot is_alpha)),
    (@space_after_id is_dot is_alpha _ _ dot_punct alpha_alnum H2).
  rewrite (@re_sub_scan _ _ _ u hit_multispace), (@multispace_id _ _ H3).
  reflexivity.
Qed.

Lemma cleanup_is_clean (t : text) :
  np is_space is_punct false (safe_spacing_cleanup t) = true /\
  np is_punct is_alnum false (safe_spacing_cleanup t) = true /\
  np is_blank is_blank false (safe_spacing_cleanup t) = true.
Proof.
  unfold safe_spacing_cleanup, SPACE_AFTER_PUNCT_RE, SPACE_AFTER_DOT_RE.
  set (t1 := re_sub ELLIPSIS_RE _ t).
  set (t2 := re_sub SPACE_BEFORE_PUNCT_RE _ t1).
  set (t3 := re_sub (Cat (Grp 1 (Set_ is_punct)) _) _ t2).
  assert (S2 : np is_space is_punct false t2 = true).
  { unfold t2. rewrite (@re_sub_scan _ _ _ t1 hit_space_before_punct).
    apply space_before_punct_np. lia. }
  assert (S3 : np is_space is_punct false t3 = true).
  { unfold t3. rewrite (@re_sub_scan _ _ _ t2 (hit_space_after is_punct is_alnum)).
    apply space_after_punct_keeps; [lia | exact S2]. }
  assert (P3 : np is_punct is_alnum false t3 = true).
  { unfold t3. rewrite (@re_sub_scan _ _ _ t2 (hit_space_after is_punct is_alnum)).
    apply space_after_punct_np. lia. }
  rewrite (@re_sub_scan _ _ _ t3 (hit_space_after is_dot is_alpha)),
    (@space_after_id is_dot is_alpha _ _ dot_punct alpha_alnum P3).
  rewrite (@re_sub_scan _ _ _ t3 hit_multispace).
  repeat split.
  - apply multispace_keeps_space; [lia | exact S3].
  - apply multispace_keeps_punct; [lia | exact P3].
  - apply multispace_np. lia.
Qed.

(** C8.  Idempotence of spacing cleanup: for every text, cleaning the
    result of [safe_spacing_cleanup] once more gives that result again. *)
Theorem safe_spacing_cleanup_idempotent (t : text) :
  safe_spacing_cleanup (safe_spacing_cleanup t) = safe_spacing_cleanup t.
Proof.
  destruct (cleanup_is_clean t) as (H1 & H2 & H3).
  now apply cleanup_fixes_clean.
Qed.

End Cleanup.

(** ** The protector on brand names inside other protected spans *)

Section ProtectorRuns.
Context `{Unicode}.

(** C1.  The round trip fails where a brand name lies inside a URL: the
    brand is replaced first, the URL pattern then takes the placeholder
    of the brand into its own span, and [unprotect], which goes through
    the dictionary in insertion order, restores the URL with the
    placeholder of the brand still in it.  The whole pipeline writes
    that text, with a service that finds nothing to correct. *)
Theorem brand_in_url_not_restored :
  let raw := str "https://github.com/edsmomusic/spellfix" in
  protect raw =
    (PLACEHOLDER_FMT 1,
     [(PLACEHOLDER_FMT 0, str "spellfix");
      (PLACEHOLDER_FMT 1, str "https://github.com/edsmomusic/" ++ PLACEHOLDER_FMT 0)])
  /\ unprotect (fst (protect raw)) (snd (protect raw)) =
       str "https://github.com/edsmomusic/" ++ PLACEHOLDER_FMT 0
  /\ unprotect (fst (protect raw)) (snd (protect raw)) <> raw
  /\ fst (fst (main quiet_service 1200 raw 0)) =
       str "https://github.com/edsmomusic/" ++ PLACEHOLDER_FMT 0.
Proof.
  repeat split; try (vm_compute; reflexivity).
  vm_compute. discriminate.
Qed.

(** C2.  A placeholder is matched again by a later pattern: after the
    brand in [/SpellFix] has become a placeholder, the path pattern
    matches the slash together with that placeholder.  The key of the
    brand is then no longer in the protected text, and it is inside the
    value recorded for the path. *)
Theorem placeholder_rematched_by_path :
  let raw := str "/SpellFix" in
  let key0 := PLACEHOLDER_FMT 0 in
  let key1 := PLACEHOLDER_FMT 1 in
  fst (re_sub_st BRAND_RE repl (0%N, []) raw) = str "/" ++ key0
  /\ option_map (fun m => group m 0) (match_here PATH_RE None (str "/" ++ key0)) =
       Some (str "/" ++ key0)
  /\ protect raw = (key1, [(key0, str "SpellFix"); (key1, str "/" ++ key0)])
  /\ contains key0 (fst (protect raw)) = false
  /\ (exists v, dict_get key1 (snd (protect raw)) = Some v /\ contains key0 v = true).
Proof.
  repeat split; try (vm_compute; reflexivity).
  eexists. split; vm_compute; reflexivity.
Qed.

(** C3.  A name that ends in a known top-level domain is split like any
    other pair of words joined by a dot, although the pattern for such
    names matches it: nothing consults that pattern.  A plain join is
    split as well. *)
Theorem domain_like_name_is_split :
  fix_dot_joined_words (str "Visit example.com today") = str "Visit example com today"
  /\ option_map (fun m => group m 0)
       (match_here DOMAIN_LIKE_RE (Some 32%N) (str "example.com today")) =
     Some (str "example.com")
  /\ fst (protect (str "Visit example.com today")) = str "Visit example.com today"
  /\ fix_dot_joined_words (str "word.another") = str "word another".
Proof. repeat split; vm_compute; reflexivity. Qed.

End ProtectorRuns.

(** ** Runs on ASCII text *)

(** C6.  An edit inside a placeholder is applied: the span of the match
    covers the two digits of the placeholder for span 10 and no
    delimiter, so the guard lets it through and the placeholder is
    overwritten; [unprotect] no longer finds its key. *)
Theorem placeholder_digits_overwritten :
  let t := PLACEHOLDER_FMT 10 ++ str " is here" in
  let m := a_match "misspelling" 1 2 "ten" in
  let t' := [PH] ++ str "ten" ++ [PH] ++ str " is here" in
  slice t 1 3 = str "10"
  /\ contains (PLACEHOLDER_FMT 10) t = true
  /\ @apply_misspellings_only ascii_tables t [m] = Ok t'
  /\ contains (PLACEHOLDER_FMT 10) t' = false
  /\ unprotect t' [(PLACEHOLDER_FMT 10, str "my_var")] = t'.
Proof. repeat split; vm_compute; reflexivity. Qed.



(** "Hello" against the candidate "hello". *)
Lemma case_only_skip_witness :
  let m := a_match "misspelling" 0 5 "hello" in
  case_only (H := ascii_tables) (slice (str "Hello x") 0 5) (str "hello")
  /\ @loop_body ascii_tables (str "Hello x") 0 m = Ok (str "Hello x", 0%Z)
  /\ @apply_misspellings_only ascii_tables (str "Hello x") [m] = Ok (str "Hello x").
Proof.
  cbv zeta.
  assert (C : case_only (H := ascii_tables) (slice (str "Hello x") (0 + 0) (0 + 0 + 5))
                (str "hello")).
  { split; [vm_compute; reflexivity | vm_compute; discriminate]. }
  pose proof (@case_only_skip ascii_tables (str "Hello x") [] []
                (a_match "misspelling" 0 5 "hello") (str "Hello x") 0 0 5 (str "hello")
                eq_refl (ex_intro _ _ eq_refl) eq_refl eq_refl eq_refl C) as [G1 G2].
  split; [exact C|]. split; [exact G1|]. exact G2.
Defined.

(** The claim of C10 as it is stated fails: a rule that is not a record
    makes the function raise, with integer offset and length. *)
Lemma total_without_rule_refuted :
  ~ (forall (t : text) (matches : list json),
       Forall match_record matches ->
       exists t', @apply_misspellings_only ascii_tables t matches = Ok t').
Proof.
  intros C.
  destruct (C (str "abc")
              [JDict [(str "rule", JNull); (str "offset", JInt 0); (str "length", JInt 0)]])
    as (t' & E).
  - constructor; [|constructor].
    exists [(str "rule", JNull); (str "offset", JInt 0); (str "length", JInt 0)].
    repeat split; [exists 0%Z | exists 0%Z]; reflexivity.
  - vm_compute in E. discriminate E.
Qed.

(** Offsets and lengths that are negative, beyond the text, and
    overlapping. *)
Lemma apply_misspellings_only_total_witness :
  let matches := [a_match "misspelling" (-2) 1 "X"; a_match "misspelling" 100 1 "Y";
                  a_match "misspelling" 3 (-2) "Z"; a_match "misspelling" 0 4 "W"] in
  Forall match_record matches /\ Forall rule_record matches
  /\ exists t', @apply_misspellings_only ascii_tables (str "abcdef") matches = Ok t'.
Proof.
  cbv zeta.
  assert (M : forall o l r, match_record (a_match "misspelling" o l r)).
  { intros o l r. eexists. split; [reflexivity|]. repeat split.
    - exists o. reflexivity.
    - exists l. reflexivity.
    - simpl. constructor; [|constructor]. eexists. eexists. split; reflexivity. }
  assert (R : forall o l r, rule_record (a_match "misspelling" o l r)).
  { intros o l r. exact I. }
  assert (F1 : Forall match_record
                 [a_match "misspelling" (-2) 1 "X"; a_match "misspelling" 100 1 "Y";
                  a_match "misspelling" 3 (-2) "Z"; a_match "misspelling" 0 4 "W"])
    by (repeat constructor; apply M).
  assert (F2 : Forall rule_record
                 [a_match "misspelling" (-2) 1 "X"; a_match "misspelling" 100 1 "Y";
                  a_match "misspelling" 3 (-2) "Z"; a_match "misspelling" 0 4 "W"])
    by (repeat constructor; apply R).
  split; [exact F1|]. split; [exact F2|].
  exact (@apply_misspellings_only_total ascii_tables (str "abcdef") _ F1 F2).
Defined.

(** The claim of C7 as it is stated fails: a blank-line boundary longer
    than the bound is a chunk on its own, and it is no paragraph. *)
Lemma oversized_chunk_not_a_paragraph :
  ~ (forall (MAX_CHUNK_CHARS : Z) (t c : text),
       In c (@chunk_paragraphs ascii_tables MAX_CHUNK_CHARS t) ->
       (len c > MAX_CHUNK_CHARS)%Z ->
       In c (@paragraphs ascii_tables t)).
Proof.
  intros C.
  specialize (C 3%Z ([97; 10; 32; 32; 32; 32; 32; 10; 98]%N)
                ([10; 32; 32; 32; 32; 32; 10]%N)).
  assert (P : @paragraphs ascii_tables [97; 10; 32; 32; 32; 32; 32; 10; 98]%N =
              [[97%N]; [98%N]]) by (vm_compute; reflexivity).
  rewrite P in C.
  assert (K : @chunk_paragraphs ascii_tables 3 [97; 10; 32; 32; 32; 32; 32; 10; 98]%N =
              [[97%N]; [10; 32; 32; 32; 32; 32; 10]%N; [98%N]]) by (vm_compute; reflexivity).
  rewrite K in C.
  destruct C as [E|[E|[]]]; try discriminate E.
  - right. left. reflexivity.
  - vm_compute. reflexivity.
Qed.

(** Three chunks that each begin with a misspelling; the request for
    the second times out.  The first and the third come out corrected,
    the second as it is. *)
Lemma chunk_failure_contained_witness :
  let pre := [str "teh one"] in
  let post := [str "teh three"] in
  correcting_service 1 (str "teh two") = (Raise (RequestError (str "timed out")), 2)
  /\ @process_chunks ascii_tables nat correcting_service
       (pre ++ str "teh two" :: post) [] [] 0 =
       ([str "the one"; str "teh two"; str "the three"],
        [SpellFixError (RequestError (str "timed out"))], 3)
  /\ @processed ascii_tables nat correcting_service 0 pre [str "the one"] [] 1
  /\ @processed ascii_tables nat correcting_service 2 post [str "the three"] [] 3.
Proof.
  cbv zeta. split; [reflexivity|].
  assert (Hpre : @process_chunks ascii_tables nat correcting_service
                   [str "teh one"] [] [] 0 = ([str "the one"], [], 1))
    by (vm_compute; reflexivity).
  assert (Hpost : @process_chunks ascii_tables nat correcting_service
                    [str "teh three"] [] [] 2 = ([str "the three"], [], 3))
    by (vm_compute; reflexivity).
  destruct (@chunk_failure_contained ascii_tables nat correcting_service
              [str "teh one"] [str "teh three"] (str "teh two") 0 1 2 3
              [str "the one"] [str "the three"] [] []
              (Raise (RequestError (str "timed out")))
              (RequestError (str "timed out"))
              Hpre eq_refl eq_refl Hpost) as (G & _ & _ & _ & P1 & P2).
  split; [exact G|]. split; [exact P1 | exact P2].
Defined.

(** ** Every match is reached *)

Section RelationalFacts.
Context `{Unicode}.

Lemma rep_reaches (sf : mstate -> list mstate) (R : mstate -> mstate -> Prop) :
  (forall st st', In st' (sf st) -> R st st') ->
  forall fuel lo hi st st',
    In st' (rep sf fuel lo hi st) ->
    exists n, lo <= n /\ (forall h, hi = Some h -> n <= h) /\ chain R n st st'.
Proof.
  intros Hsf. induction fuel as [|fuel IH]; intros lo hi st st' Hin; simpl in Hin.
  - destruct (Nat.eqb_spec lo 0); simpl in Hin; [|contradiction].
    destruct Hin as [<-|[]]. exists 0. repeat split; [lia | intros; lia].
  - apply in_app_or in Hin. destruct Hin as [Hin|Hin].
    + assert (Hh : hi <> Some 0) by (intros ->; contradiction).
      assert (G : In st'
                (flat_map (fun st1 =>
                   if Nat.ltb (length (rest st1)) (length (rest st))
                   then rep sf fuel (Nat.pred lo) (option_map Nat.pred hi) st1
                   else []) (sf st))).
      { destruct hi as [[|h]|]; [contradiction | exact Hin | exact Hin]. }
      apply in_flat_map in G. destruct G as (st1 & H1 & H2).
      destruct (Nat.ltb _ _); [|contradiction].
      destruct (IH _ _ _ _ H2) as (n & Hlo & Hhi & Hc).
      exists (S n). repeat split.
      * lia.
      * intros h ->. destruct h as [|h]; [congruence|].
        specialize (Hhi h eq_refl). lia.
      * simpl. exists st1. split; [now apply Hsf | exact Hc].
    + destruct (Nat.eqb_spec lo 0); simpl in Hin; [|contradiction].
      destruct Hin as [<-|[]]. exists 0. repeat split; [lia | intros; lia].
Qed.

Lemma rmatch_reaches (r : regex) :
  forall st st', In st' (rmatch r st) -> reaches r st st'.
Proof.
  induction r as [|p|r1 IH1 r2 IH2|r1 IH1 r2 IH2|lo hi r1 IH1|i r1 IH1| | |r1 IH1|r1 IH1|p|];
    intros st st' Hin; cbn [rmatch] in Hin; cbn [reaches].
  - destruct Hin as [<-|[]]. reflexivity.
  - destruct (rest st) as [|c s] eqn:E; [contradiction|].
    destruct (p c) eqn:Ep; [|contradiction]. destruct Hin as [<-|[]]. eauto.
  - apply in_flat_map in Hin. destruct Hin as (x & H1 & H2). eauto.
  - apply in_app_or in Hin. destruct Hin; auto.
  - eapply rep_reaches; [exact IH1 | exact Hin].
  - apply in_map_iff in Hin. destruct Hin as (x & <- & H1). eauto.
  - destruct (xorb _ _) eqn:E; [|contradiction]. destruct Hin as [<-|[]]. auto.
  - destruct (xorb _ _) eqn:E; [contradiction|]. destruct Hin as [<-|[]]. auto.
  - destruct (rmatch r1 st) as [|x l] eqn:E; [contradiction|].
    destruct Hin as [<-|[]]. split; [reflexivity|]. exists x. apply IH1.
    rewrite E. now left.
  - destruct (rmatch r1 st) as [|x l] eqn:E; [|contradiction].
    destruct Hin as [<-|[]]. auto.
  - destruct (before st) as [c|]; [destruct (p c) eqn:Ep; [contradiction|]|];
      destruct Hin as [<-|[]]; auto.
  - destruct (before st) eqn:E; [contradiction|]. destruct Hin as [<-|[]]. auto.
Qed.

(** The match at the cursor: where the pattern leads, and group 0. *)
Lemma match_here_reaches (r : regex) (bef : option char) (s : text) (m : mstate) :
  match_here r bef s = Some m ->
  exists x, reaches r (MState bef s []) x /\
            m = capture 0 (MState bef s []) x.
Proof.
  unfold match_here. rewrite rmatch_grp.
  destruct (rmatch r (MState bef s [])) as [|x l] eqn:E; [discriminate|].
  simpl. intros [= <-]. exists x. split; [|reflexivity].
  apply rmatch_reaches. rewrite E. now left.
Qed.

End RelationalFacts.

(** ** Substitutions that rewrite a text place by place *)

Lemma Forall2_same {A : Type} (R : A -> A -> Prop) (l : list A) :
  (forall a, R a a) -> Forall2 R l l.
Proof. intros Hr. induction l; constructor; auto. Qed.

Lemma Forall2_compose {A : Type} (R : A -> A -> Prop) :
  (forall a b c, R a b -> R b c -> R a c) ->
  forall l1 l2 l3, Forall2 R l1 l2 -> Forall2 R l2 l3 -> Forall2 R l1 l3.
Proof.
  intros Ht l1 l2 l3 H12. revert l3.
  induction H12 as [|a b l1 l2 Hab _ IH]; intros l3 H23; inversion H23; subst;
    constructor; eauto.
Qed.

Section Pointwise.
Context `{Unicode}.

Lemma chain_suffix (R : mstate -> mstate -> Prop) :
  (forall st st', R st st' -> exists w, rest st = w ++ rest st') ->
  forall n st st', chain R n st st' -> exists w, rest st = w ++ rest st'.
Proof.
  intros HR. induction n as [|n IH]; intros st st' Hc; simpl in Hc.
  - subst. now exists [].
  - destruct Hc as (x & H1 & H2).
    destruct (HR _ _ H1) as (w1 & E1). destruct (IH _ _ H2) as (w2 & E2).
    exists (w1 ++ w2). now rewrite E1, E2, app_assoc.
Qed.

Lemma reaches_suffix (r : regex) :
  forall st st', reaches r st st' -> exists w, rest st = w ++ rest st'.
Proof.
  induction r as [|p|r1 IH1 r2 IH2|r1 IH1 r2 IH2|lo hi r1 IH1|i r1 IH1| | |r1 IH1|r1 IH1|p|];
    intros st st' Hr; cbn [reaches] in Hr.
  - subst. now exists [].
  - destruct Hr as (c & s & E & _ & ->). exists [c]. exact E.
  - destruct Hr as (x & H1 & H2).
    destruct (IH1 _ _ H1) as (w1 & E1). destruct (IH2 _ _ H2) as (w2 & E2).
    exists (w1 ++ w2). now rewrite E1, E2, app_assoc.
  - destruct Hr; eauto.
  - destruct Hr as (n & _ & _ & Hc). eapply chain_suffix; eauto.
  - destruct Hr as (x & H1 & ->). simpl. eauto.
  - destruct Hr as [-> _]. now exists [].
  - destruct Hr as [-> _]. now exists [].
  - destruct Hr as [-> _]. now exists [].
  - destruct Hr as [-> _]. now exists [].
  - destruct Hr as [-> _]. now exists [].
  - destruct Hr as [-> _]. now exists [].
Qed.

(** A run of one class consumes characters of the class and captures
    nothing. *)
Lemma chain_set (p : char -> bool) (n : nat) :
  forall st st',
    chain (reaches (Set_ p)) n st st' ->
    exists w, rest st = w ++ rest st' /\ Forall (fun c => p c = true) w /\
              groups st' = groups st.
Proof.
  induction n as [|n IH]; intros st st' Hc; simpl in Hc.
  - subst. exists []. repeat split. constructor.
  - destruct Hc as (x & (c & s & E & Ep & ->) & Hc).
    destruct (IH _ _ Hc) as (w & E1 & F & G). simpl in *.
    exists (c :: w). repeat split.
    + rewrite E, E1. reflexivity.
    + constructor; assumption.
    + exact G.
Qed.

(** When every match is replaced by a text related to it place by
    place, the whole text is related to its rewriting. *)
Lemma sub_from_pointwise (R : char -> char -> Prop) (r : regex)
    (repl : mstate -> text) :
  (forall a, R a a) ->
  (forall bef s m, match_here r bef s = Some m -> Forall2 R (group m 0) (repl m)) ->
  forall fuel bef s, Forall2 R s (sub_from fuel r repl bef s).
Proof.
  intros Hrefl Hm. induction fuel as [|fuel IH]; intros bef s; simpl.
  - now apply Forall2_same.
  - assert (Hcopy : Forall2 R s
                      match s with
                      | [] => []
                      | c :: s' => c :: sub_from fuel r repl (Some c) s'
                      end).
    { destruct s as [|c s']; constructor; auto. }
    destruct (match_here r bef s) as [m|] eqn:E; [|exact Hcopy].
    pose proof (match_here_whole _ _ _ E) as Es.
    pose proof (Hm _ _ _ E) as Hg.
    destruct (Nat.ltb_spec (length (rest m)) (length s)) as [L|L].
    + rewrite Es at 1. apply Forall2_app; [exact Hg | apply IH].
    + assert (G0 : group m 0 = []).
      { destruct (group m 0) as [|c g]; [reflexivity|].
        rewrite Es in L. rewrite length_app in L. simpl in L. lia. }
      rewrite G0 in Hg. inversion Hg. simpl. exact Hcopy.
Qed.

Lemma re_sub_pointwise (R : char -> char -> Prop) (r : regex)
    (repl : mstate -> text) (s : text) :
  (forall a, R a a) ->
  (forall bef s' m, match_here r bef s' = Some m -> Forall2 R (group m 0) (repl m)) ->
  Forall2 R s (re_sub r repl s).
Proof. intros Hr Hm. unfold re_sub. now apply sub_from_pointwise. Qed.

End Pointwise.

(** ** What the local rewrites change *)

Section LocalRewrites.
Context `{Unicode}.

Lemma consumed_suffix (s s' w : text) : s = w ++ s' -> consumed s s' = w.
Proof. intros ->. apply consumed_app. Qed.

Lemma lit_char (a c : char) : N.eqb a c = true -> c = a.
Proof. intros E. apply N.eqb_eq in E. now subst. Qed.

(** A match of the dot-join pattern is two words around a period, and
    they are its groups. *)
Lemma prose_dot_join_match (bef : option char) (s : text) (m : mstate) :
  match_here PROSE_DOT_JOIN_RE bef s = Some m ->
  exists w1 w2, group m 0 = w1 ++ 46%N :: w2 /\ group m 1 = w1 /\ group m 2 = w2.
Proof.
  intros E. destruct (match_here_reaches _ _ _ E) as (x & Hx & ->).
  unfold PROSE_DOT_JOIN_RE, at_least, lit in Hx. cbn [cats map str] in Hx.
  cbn [reaches] in Hx.
  destruct Hx as (x1 & (-> & _) & x2 & (y1 & (n1 & _ & _ & C1) & ->)
                  & x3 & (c & s3 & E3 & Ec & ->)
                  & x4 & (y2 & (n2 & _ & _ & C2) & ->) & (-> & _)).
  destruct (chain_set _ _ _ _ C1) as (w1 & E1 & _ & G1).
  destruct (chain_set _ _ _ _ C2) as (w2 & E2 & _ & G2).
  apply lit_char in Ec. simpl in *. subst c.
  exists w1, w2. unfold group. simpl. rewrite G2. simpl.
  repeat split.
  - apply consumed_suffix. rewrite E1, E3, E2, <- app_assoc. reflexivity.
  - now apply consumed_suffix.
  - now apply consumed_suffix.
Qed.


Lemma dot_to_space_trans (a b c : char) :
  dot_to_space a b -> dot_to_space b c -> dot_to_space a c.
Proof.
  unfold dot_to_space. intros [->|[-> ->]] [->|[E ->]]; auto; discriminate E.
Qed.

Lemma iter_pointwise (R : char -> char -> Prop) (f : text -> text) (n : nat) :
  (forall a, R a a) -> (forall a b c, R a b -> R b c -> R a c) ->
  (forall t, Forall2 R t (f t)) ->
  forall t, Forall2 R t (Nat.iter n f t).
Proof.
  intros Hr Ht Hf. induction n as [|n IH]; intros t; simpl.
  - now apply Forall2_same.
  - eapply Forall2_compose; [exact Ht | apply IH | apply Hf].
Qed.

Lemma fix_dot_joined_words_pointwise (t : text) :
  Forall2 dot_to_space t (fix_dot_joined_words t).
Proof.
  unfold fix_dot_joined_words.
  apply iter_pointwise; [now left | exact dot_to_space_trans |].
  intros u. apply re_sub_pointwise; [now left|].
  intros bef s m E.
  destruct (prose_dot_join_match _ _ E) as (w1 & w2 & -> & E1 & E2).
  unfold g1_sp_g2. rewrite E1, E2.
  apply Forall2_app; [apply Forall2_same; now left|].
  constructor; [right; split; reflexivity | apply Forall2_same; now left].
Qed.

(** X1.  [fix_dot_joined_words] only ever turns a period into a space:
    place by place, a character of the result is the character of the
    text, or a space where the text has a period.  The length of the
    text, and everything in it that is not a period, stays. *)
Theorem fix_dot_joined_words_only_dots (t : text) :
  Forall2 dot_to_space t (fix_dot_joined_words t) /\
  length (fix_dot_joined_words t) = length t.
Proof.
  pose proof (fix_dot_joined_words_pointwise t) as G.
  split; [exact G|]. symmetry. exact (Forall2_length G).
Qed.

(** The three patterns of [iphone_like_caps] at the cursor. *)
Lemma lone_i_match (bef : option char) (s : text) (m : mstate) :
  match_here (cats [NotBehind is_alpha; lit (str "i"); NotAhead (Set_ is_alpha)])
    bef s = Some m ->
  group m 0 = [105%N].
Proof.
  intros E. destruct (match_here_reaches _ _ _ E) as (x & Hx & ->).
  unfold lit in Hx. cbn [cats map str] in Hx. cbn [reaches] in Hx.
  destruct Hx as (x1 & (-> & _) & x2 & (c & s3 & E3 & Ec & ->) & (-> & _)).
  apply lit_char in Ec. simpl in *. subst c s.
  unfold group. simpl. apply (consumed_app [105%N]).
Qed.

Lemma after_punct_match (bef : option char) (s : text) (m : mstate) :
  match_here (cats [Grp 1 (Set_ (one_of ".!?")); Grp 2 (plus (Set_ is_space));
                    Grp 3 (Set_ is_lower)]) bef s = Some m ->
  exists w c, is_lower c = true /\ group m 0 = w ++ [c] /\
              cap_after_punct m = w ++ upper_az [c].
Proof.
  intros E. destruct (match_here_reaches _ _ _ E) as (x & Hx & ->).
  unfold plus in Hx. cbn [cats] in Hx. cbn [reaches] in Hx.
  destruct Hx as (x1 & (y1 & (c1 & s1 & E1 & _ & ->) & ->)
                  & x2 & (y2 & (n & _ & _ & C) & ->)
                  & (y3 & (c3 & s3 & E3 & Ec & ->) & ->)).
  destruct (chain_set _ _ _ _ C) as (w2 & E2 & _ & G2).
  simpl in *. subst s.
  exists (c1 :: w2), c3. split; [exact Ec|].
  unfold cap_after_punct, group. simpl. rewrite G2. simpl.
  rewrite consumed_one, (@consumed_suffix _ _ w2 E2), (@consumed_suffix _ _ [c3] E3).
  split; [|reflexivity].
  apply consumed_suffix. rewrite E2, E3. simpl. now rewrite <- app_assoc.
Qed.

Lemma paragraph_start_match (bef : option char) (s : text) (m : mstate) :
  match_here (Cat (Grp 1 (Alt Bos BLANK_LINE)) (Grp 2 (Set_ is_lower))) bef s = Some m ->
  exists w c, is_lower c = true /\ group m 0 = w ++ [c] /\
              cap_para m = w ++ upper_az [c].
Proof.
  intros E. destruct (match_here_reaches _ _ _ E) as (x & Hx & ->).
  cbn [reaches] in Hx.
  destruct Hx as (x1 & (y1 & Hy1 & ->) & (y2 & (c & s2 & E2 & Ec & ->) & ->)).
  assert (Hs : exists w, s = w ++ rest y1).
  { destruct Hy1 as [[-> _]|Hb]; [now exists []|].
    exact (reaches_suffix _ _ _ Hb). }
  destruct Hs as (w & Ew). simpl in *.
  exists w, c. split; [exact Ec|].
  unfold cap_para, group. simpl.
  rewrite (@consumed_suffix _ _ w Ew), (@consumed_suffix _ _ [c] E2).
  split; [|reflexivity].
  apply consumed_suffix. rewrite Ew, E2. now rewrite <- app_assoc.
Qed.

Lemma to_upper_trans (a b c : char) : to_upper a b -> to_upper b c -> to_upper a c.
Proof.
  unfold to_upper. intros [->|[La ->]] [->|[Lb ->]]; auto.
  exfalso. unfold is_lower, in_range in *.
  apply andb_true_iff in La, Lb. destruct La as [L1 L2], Lb as [L3 L4].
  apply N.leb_le in L1, L2, L3, L4. lia.
Qed.

Lemma upper_az_pointwise (w : text) (c : char) :
  is_lower c = true -> Forall2 to_upper (w ++ [c]) (w ++ upper_az [c]).
Proof.
  intros Lc. apply Forall2_app; [apply Forall2_same; now left|].
  simpl. rewrite Lc. constructor; [right; auto | constructor].
Qed.

Lemma iphone_like_caps_pointwise (t : text) :
  Forall2 to_upper t (iphone_like_caps t).
Proof.
  unfold iphone_like_caps.
  eapply Forall2_compose; [exact to_upper_trans| |].
  - eapply Forall2_compose; [exact to_upper_trans| |].
    + apply re_sub_pointwise; [now left|].
      intros bef s m E. rewrite (lone_i_match _ _ E).
      constructor; [right; split; reflexivity | constructor].
    + apply re_sub_pointwise; [now left|].
      intros bef s m E.
      destruct (after_punct_match _ _ E) as (w & c & Lc & -> & ->).
      now apply upper_az_pointwise.
  - apply re_sub_pointwise; [now left|].
    intros bef s m E.
    destruct (paragraph_start_match _ _ E) as (w & c & Lc & -> & ->).
    now apply upper_az_pointwise.
Qed.

(** X2.  [iphone_like_caps] only ever turns a lowercase ASCII letter
    into its capital: place by place, a character of the result is the
    character of the text, or that letter 32 code points lower.  The
    length of the text and all its other characters stay. *)
Theorem iphone_like_caps_only_capitalises (t : text) :
  Forall2 to_upper t (iphone_like_caps t) /\
  length (iphone_like_caps t) = length t.
Proof.
  pose proof (iphone_like_caps_pointwise t) as G.
  split; [exact G|]. symmetry. exact (Forall2_length G).
Qed.


(** A literal under IGNORECASE consumes its characters, up to case. *)
Lemma lit_i_reaches (b : text) :
  forall st st',
    reaches (lit_i b) st st' ->
    exists w, rest st = w ++ rest st' /\ Forall2 same_fold w b.
Proof.
  unfold lit_i. induction b as [|a b IH]; intros st st' Hr.
  - simpl in Hr. subst. exists []. split; [reflexivity | constructor].
  - assert (Hone : forall x x', reaches (Set_ (fun c => N.eqb (fold c) (fold a))) x x' ->
                     exists c, rest x = c :: rest x' /\ same_fold c a).
    { intros x x' (c & s & E & Ec & ->). exists c. split; [exact E|].
      apply N.eqb_eq in Ec. exact Ec. }
    destruct b as [|a' b].
    + simpl in Hr. destruct (Hone _ _ Hr) as (c & E & Ec).
      exists [c]. split; [exact E | repeat constructor; exact Ec].
    + change (reaches (Cat (Set_ (fun c => N.eqb (fold c) (fold a)))
                         (cats (map (fun a0 => Set_ (fun c => N.eqb (fold c) (fold a0)))
                                  (a' :: b)))) st st') in Hr.
      cbn [reaches] in Hr. destruct Hr as (x & H1 & H2).
      destruct (Hone _ _ H1) as (c & E & Ec).
      destruct (IH _ _ H2) as (w & Ew & Fw).
      exists (c :: w). split; [rewrite E, Ew; reflexivity | constructor; assumption].
Qed.

Lemma brand_match (b : text) (bef : option char) (s : text) (m : mstate) :
  match_here (cats [Bow; lit_i b; Bow]) bef s = Some m ->
  Forall2 same_fold (group m 0) b.
Proof.
  intros E. destruct (match_here_reaches _ _ _ E) as (x & Hx & ->).
  cbn [cats] in Hx. cbn [reaches] in Hx.
  destruct Hx as (x1 & (-> & _) & x2 & Hl & (-> & _)).
  destruct (lit_i_reaches _ _ _ Hl) as (w & Ew & Fw). simpl in Ew.
  unfold group. simpl. now rewrite (@consumed_suffix _ _ w Ew).
Qed.

(** X3.  [normalize_brands] changes letter case only: place by place,
    the result and the text are equal as IGNORECASE compares characters,
    and they have the same length. *)
Theorem normalize_brands_only_recases (t : text) :
  Forall2 same_fold t (normalize_brands t) /\
  length (normalize_brands t) = length t.
Proof.
  assert (G : forall brands u,
             Forall2 same_fold u
               (fold_left (fun t b => re_sub (cats [Bow; lit_i b; Bow]) (const b) t)
                  brands u)).
  { induction brands as [|b brands IH]; intros u; simpl.
    - apply Forall2_same. reflexivity.
    - eapply Forall2_compose; [|apply re_sub_pointwise|apply IH].
      + unfold same_fold. intros; congruence.
      + reflexivity.
      + intros bef s m E. exact (brand_match _ _ _ E). }
  split; [apply G|]. symmetry. exact (Forall2_length (G BRANDS t)).
Qed.

End LocalRewrites.

(** ** Spacing cleanup: what it keeps and where it stops *)

Lemma visible_app (x y : text) : visible (x ++ y) = visible x ++ visible y.
Proof. apply filter_app. Qed.

(** The characters that [drop] leaves out. *)
Lemma drop_split (p : char -> bool) (s : text) :
  (forall c, p c = true -> is_space c = true) ->
  exists ws, s = ws ++ drop p s /\ visible ws = [].
Proof.
  intros Hp. induction s as [|c s (ws & E & V)]; simpl.
  - now exists [].
  - destruct (p c) eqn:Ec.
    + exists (c :: ws). split; [simpl; f_equal; exact E|].
      simpl. now rewrite (Hp _ Ec).
    + now exists [].
Qed.

(** A scan keeps the visible characters when each of its steps does. *)
Lemma scan_visible (h : step) :
  (forall s out s', h s = Some (out, s') ->
     exists w, s = w ++ s' /\ visible out = visible w) ->
  forall fuel s, visible (scan fuel h s) = visible s.
Proof.
  intros Hh. induction fuel as [|fuel IH]; intros s; simpl; [reflexivity|].
  assert (Hcopy : visible match s with
                          | [] => []
                          | c :: s' => c :: scan fuel h s'
                          end = visible s).
  { destruct s as [|c s']; [reflexivity|].
    change (visible ([c] ++ scan fuel h s') = visible ([c] ++ s')).
    now rewrite !visible_app, IH. }
  destruct (h s) as [[out s']|] eqn:E; [|exact Hcopy].
  destruct (Hh _ _ _ E) as (w & Es & V).
  destruct (Nat.ltb_spec (length s') (length s)) as [L|L].
  - rewrite visible_app, IH, V, <- visible_app. now rewrite <- Es.
  - assert (W : w = []).
    { destruct w as [|c w]; [reflexivity|].
      rewrite Es, length_app in L. simpl in L. lia. }
    subst w. simpl in V. rewrite visible_app, V. exact Hcopy.
Qed.

Lemma ellipsis_step_visible (s out s' : text) :
  ellipsis_step s = Some (out, s') ->
  exists w, s = w ++ s' /\ visible out = visible w.
Proof.
  destruct s as [|c s1]; [discriminate|]. simpl.
  destruct (is_dot c) eqn:Ec; [|discriminate].
  destruct (drop is_space s1) as [|d s2] eqn:E1; [discriminate|].
  destruct (is_dot d) eqn:Ed; [|discriminate].
  destruct (drop is_space s2) as [|e s3] eqn:E2; [discriminate|].
  destruct (is_dot e) eqn:Ee; [|discriminate].
  intros [= <- <-].
  destruct (drop_split is_space s1 (fun c E => E)) as (w1 & F1 & V1).
  destruct (drop_split is_space s2 (fun c E => E)) as (w2 & F2 & V2).
  rewrite E1 in F1. rewrite E2 in F2.
  apply dot_is in Ec, Ed, Ee. subst c d e.
  exists ([46%N] ++ w1 ++ [46%N] ++ w2 ++ [46%N]). split.
  - rewrite F1, F2. simpl. repeat (rewrite <- app_assoc; simpl). reflexivity.
  - rewrite !visible_app, V1, V2. reflexivity.
Qed.

Lemma space_before_punct_step_visible (s out s' : text) :
  space_before_punct_step s = Some (out, s') ->
  exists w, s = w ++ s' /\ visible out = visible w.
Proof.
  destruct s as [|c s1]; [discriminate|]. simpl.
  destruct (is_space c) eqn:Ec; [|discriminate].
  destruct (drop is_space s1) as [|p r] eqn:E1; [discriminate|].
  destruct (is_punct p) eqn:Ep; [|discriminate].
  intros [= <- <-].
  destruct (drop_split is_space s1 (fun c E => E)) as (w1 & F1 & V1).
  rewrite E1 in F1.
  exists ([c] ++ w1 ++ [p]). split.
  - rewrite F1. simpl. repeat (rewrite <- app_assoc; simpl). reflexivity.
  - rewrite !visible_app, V1. simpl. now rewrite Ec.
Qed.

Lemma space_after_step_visible (P Q : char -> bool) (s out s' : text) :
  space_after_step P Q s = Some (out, s') ->
  exists w, s = w ++ s' /\ visible out = visible w.
Proof.
  destruct s as [|p [|x r]]; try discriminate. simpl.
  destruct (P p && Q x); [|discriminate].
  intros [= <- <-]. exists [p; x]. split; reflexivity.
Qed.

Lemma multispace_step_visible (s out s' : text) :
  multispace_step s = Some (out, s') ->
  exists w, s = w ++ s' /\ visible out = visible w.
Proof.
  destruct s as [|c [|d r]]; try discriminate. simpl.
  destruct (is_blank c) eqn:Ec; [|discriminate].
  destruct (is_blank d) eqn:Ed; [|discriminate].
  intros [= <- <-].
  destruct (drop_split is_blank r blank_space) as (w1 & F1 & V1).
  exists ([c; d] ++ w1). split.
  - rewrite F1 at 1. reflexivity.
  - rewrite visible_app, V1. simpl.
    now rewrite (blank_space _ Ec), (blank_space _ Ed).
Qed.

(** No forbidden pair, said with [np] and said with [adjacent]. *)
Lemma np_adjacent (A B : char -> bool) (s : text) :
  forall a0,
    np A B a0 s = true <->
    (a0 = true -> head_in B s = false) /\
    (forall a b, adjacent a b s -> A a && B b = false).
Proof.
  induction s as [|c s IH]; intros a0; simpl.
  - split; [|reflexivity]. intros _. split; [reflexivity|].
    intros a b (u & v & E). destruct u; discriminate E.
  - rewrite andb_true_iff, negb_true_iff, IH. split.
    + intros (N1 & N2 & N3). split.
      * intros ->. exact N1.
      * intros a b (u & v & E). destruct u as [|c' u].
        -- injection E as -> ->. simpl in N2.
           destruct (A a); [now rewrite N2 | reflexivity].
        -- injection E as _ E. apply N3. now exists u, v.
    + intros (N1 & N2). split; [|split].
      * destruct a0; [now rewrite N1 | reflexivity].
      * intros Ac. destruct s as [|b s]; [reflexivity|]. simpl.
        specialize (N2 c b (ex_intro _ [] (ex_intro _ s eq_refl))).
        now rewrite Ac in N2.
      * intros a b (u & v & E). apply N2. exists (c :: u), v. now rewrite E.
Qed.

Lemma clean_np (t : text) :
  clean t <->
  np is_space is_punct false t = true /\
  np is_punct is_alnum false t = true /\
  np is_blank is_blank false t = true.
Proof.
  rewrite !np_adjacent. unfold clean. split.
  - intros C. repeat split; try discriminate; intros a b Hab; apply (C a b Hab).
  - intros ((_ & C1) & (_ & C2) & (_ & C3)) a b Hab. auto.
Qed.

Section CleanupMore.
Context `{Unicode}.

(** X4.  [safe_spacing_cleanup] inserts and removes white space only:
    the characters of the text that are not white space come out as they
    went in, all of them and in the same order. *)
Theorem safe_spacing_cleanup_keeps_visible (t : text) :
  visible (safe_spacing_cleanup t) = visible t.
Proof.
  unfold safe_spacing_cleanup, SPACE_AFTER_PUNCT_RE, SPACE_AFTER_DOT_RE.
  rewrite (@re_sub_scan _ _ _ _ _ hit_multispace),
    (scan_visible _ multispace_step_visible).
  rewrite (@re_sub_scan _ _ _ _ _ (hit_space_after is_dot is_alpha)),
    (scan_visible _ (space_after_step_visible is_dot is_alpha)).
  rewrite (@re_sub_scan _ _ _ _ _ (hit_space_after is_punct is_alnum)),
    (scan_visible _ (space_after_step_visible is_punct is_alnum)).
  rewrite (@re_sub_scan _ _ _ _ _ hit_space_before_punct),
    (scan_visible _ space_before_punct_step_visible).
  rewrite (@re_sub_scan _ _ _ _ _ hit_ellipsis),
    (scan_visible _ ellipsis_step_visible).
  reflexivity.
Qed.

(** X5.  The result of [safe_spacing_cleanup] is clean, and the clean
    texts are exactly the texts that the cleanup leaves as they are. *)
Theorem safe_spacing_cleanup_fixed_points (t : text) :
  clean (safe_spacing_cleanup t) /\
  (safe_spacing_cleanup t = t <-> clean t).
Proof.
  assert (C : clean (safe_spacing_cleanup t))
    by (apply clean_np, cleanup_is_clean).
  split; [exact C|]. split.
  - intros E. now rewrite E in C.
  - intros Ct. apply clean_np in Ct. destruct Ct as (C1 & C2 & C3).
    now apply cleanup_fixes_clean.
Qed.

End CleanupMore.

(** ** Slices inside the text *)

Lemma len_nonneg (t : text) : (0 <= len t)%Z.
Proof. unfold len. lia. Qed.

Lemma clip_range (n i : Z) : (0 <= n)%Z -> (0 <= clip n i <= n)%Z.
Proof. intros Hn. unfold clip. destruct (Z.ltb_spec i 0); lia. Qed.

Lemma slice_to_firstn (t : text) (a : Z) :
  slice_to t a = firstn (Z.to_nat (clip (len t) a)) t.
Proof.
  unfold slice_to, slice. pose proof (len_nonneg t).
  assert (E : clip (len t) 0 = 0%Z) by (unfold clip; simpl; lia).
  rewrite E. simpl. now rewrite Z.sub_0_r.
Qed.

Lemma slice_from_skipn (t : text) (b : Z) :
  slice_from t b = skipn (Z.to_nat (clip (len t) b)) t.
Proof.
  unfold slice_from, slice. pose proof (len_nonneg t).
  pose proof (clip_range b H) as Hb.
  assert (E : clip (len t) (len t) = len t) by (unfold clip; destruct (Z.ltb_spec (len t) 0); lia).
  rewrite E. apply firstn_all2. rewrite length_skipn. unfold len in *. lia.
Qed.

Lemma slice_in (t : text) (a b : Z) :
  (0 <= a)%Z -> (a <= b)%Z -> (b <= len t)%Z ->
  slice t a b = firstn (Z.to_nat (b - a)) (skipn (Z.to_nat a) t).
Proof.
  intros Ha Hab Hb. unfold slice. now rewrite !clip_inside by lia.
Qed.

Lemma delimiters_app (x y : text) : delimiters (x ++ y) = delimiters x + delimiters y.
Proof. unfold delimiters. now rewrite filter_app, length_app. Qed.

Lemma delimiters_none (x : text) :
  existsb (N.eqb PH) x = false -> delimiters x = 0.
Proof.
  unfold delimiters. induction x as [|c x IH]; cbn [existsb filter]; [reflexivity|].
  destruct (N.eqb PH c); cbn [orb]; [discriminate | exact IH].
Qed.

(** Cutting a text at two places loses no delimiter when the part
    between them has none, whatever the order of the two places. *)
Lemma cut_keeps_delimiters (t : text) (lo hi : nat) :
  delimiters (firstn (hi - lo) (skipn lo t)) = 0 ->
  delimiters t <= delimiters (firstn lo t) + delimiters (skipn hi t).
Proof.
  intros Hmid. destruct (Nat.le_gt_cases lo hi) as [L|L].
  - rewrite <- (firstn_skipn lo t) at 1. rewrite delimiters_app.
    rewrite <- (firstn_skipn (hi - lo) (skipn lo t)) at 1.
    rewrite delimiters_app, Hmid, skipn_skipn.
    replace (hi - lo + lo) with hi by lia. lia.
  - rewrite <- (firstn_skipn hi t) at 1. rewrite delimiters_app.
    assert (E : delimiters (firstn hi t) <= delimiters (firstn lo t)).
    { rewrite <- (firstn_skipn hi (firstn lo t)).
      rewrite delimiters_app, firstn_firstn.
      replace (Nat.min hi lo) with hi by lia. lia. }
    lia.
Qed.

Lemma splice_keeps_delimiters (t rs : text) (a b : Z) :
  existsb (N.eqb PH) (slice t a b) = false ->
  delimiters t <= delimiters (slice_to t a ++ rs ++ slice_from t b).
Proof.
  intros Hg. apply delimiters_none in Hg. unfold slice in Hg.
  rewrite slice_to_firstn, slice_from_skipn, !delimiters_app.
  pose proof (len_nonneg t) as Hn.
  pose proof (clip_range a Hn). pose proof (clip_range b Hn).
  rewrite Z2Nat.inj_sub in Hg by lia.
  pose proof (cut_keeps_delimiters t _ _ Hg). lia.
Qed.

Lemma len_app (x y : text) : len (x ++ y) = (len x + len y)%Z.
Proof. unfold len. rewrite length_app. lia. Qed.

Lemma ordered_bound (t : text) (edits : list edit) :
  forall pos, ordered t pos edits -> (pos <= len t)%Z.
Proof.
  induction edits as [|[[o l] r] edits IH]; intros pos Ho; simpl in Ho; [exact Ho|].
  destruct Ho as (H1 & H2 & H3). specialize (IH _ H3). lia.
Qed.

(** The span of an edit, seen in the text as the loop has it after the
    edits before: [done] is what has been written, the original text
    goes on from [pos]. *)
Lemma splice_step (t done : text) (pos o l : Z) :
  (0 <= pos)%Z -> (pos <= o)%Z -> (0 <= l)%Z -> (o + l <= len t)%Z ->
  let cur := done ++ slice_from t pos in
  let start := (o + (len done - pos))%Z in
  slice cur start (start + l) = slice t o (o + l) /\
  slice_to cur start = done ++ slice t pos o /\
  slice_from cur (start + l) = slice_from t (o + l).
Proof.
  intros Hp Ho Hl Hb cur start.
  assert (Ecur : cur = done ++ skipn (Z.to_nat pos) t).
  { unfold cur. rewrite slice_from_skipn, clip_inside by lia. reflexivity. }
  assert (Lcur : len cur = (len done + (len t - pos))%Z).
  { rewrite Ecur, len_app. unfold len in *. rewrite length_skipn. lia. }
  assert (Hdone : (0 <= len done)%Z) by apply len_nonneg.
  assert (Es : Z.to_nat start = length done + (Z.to_nat o - Z.to_nat pos)).
  { unfold start, len in *. lia. }
  assert (Sk : forall k, skipn (length done + k) cur = skipn (k + Z.to_nat pos) t).
  { intros k. rewrite Ecur, skipn_app, skipn_all2 by lia.
    replace (length done + k - length done) with k by lia.
    simpl. apply skipn_skipn. }
  repeat split.
  - rewrite !slice_in by (unfold start in *; lia).
    rewrite Es, Sk. f_equal; [lia | f_equal; lia].
  - rewrite slice_to_firstn, clip_inside by (unfold start in *; lia).
    rewrite Es, Ecur, firstn_app_2, slice_in by lia.
    do 2 f_equal. lia.
  - rewrite !slice_from_skipn, !clip_inside by (unfold start in *; lia).
    replace (Z.to_nat (start + l)) with
      (length done + (Z.to_nat o - Z.to_nat pos + Z.to_nat l))
      by (unfold start, len in *; lia).
    rewrite Sk. f_equal. lia.
Qed.

Section PatchMore.
Context `{Unicode}.

(** What one round of the loop can do to the text: nothing, or one
    splice that passed the delimiter guard. *)
Lemma loop_body_inv (t : text) (s : Z) (m : json) (t' : text) (s' : Z) :
  loop_body t s m = Ok (t', s') ->
  t' = t \/
  exists a b rs,
    existsb (N.eqb PH) (slice t a b) = false /\
    t' = slice_to t a ++ rs ++ slice_from t b.
Proof.
  unfold loop_body.
  destruct (get m "rule" (JDict [])) as [rule|]; [|discriminate]. cbn [bind].
  destruct (get rule "issueType" JNull) as [issue|]; [|discriminate]. cbn [bind].
  destruct (negb (is_str issue "misspelling")); [intros [= <- _]; now left|].
  destruct (get m "replacements" JNull) as [r|]; [|discriminate]. cbn [bind].
  destruct (negb (truthy (if truthy r then r else JList []))); [intros [= <- _]; now left|].
  destruct (item m "offset") as [offset|]; [|discriminate]. cbn [bind].
  destruct (operand offset) as [o|]; [|discriminate]. cbn [bind].
  destruct (item m "length") as [length_|]; [|discriminate]. cbn [bind].
  destruct (operand length_) as [l|]; [|discriminate]. cbn [bind].
  destruct (first (if truthy r then r else JList [])) as [r0|]; [|discriminate].
  cbn [bind].
  destruct (item r0 "value") as [replacement|]; [|discriminate]. cbn [bind].
  destruct (add o (Int s)) as [a|]; [|discriminate].
  destruct (add (Int a) l) as [b|]; [|discriminate].
  cbn [slice_num bind].
  destruct (existsb (N.eqb PH) (slice t a b)) eqn:Eg; [intros [= <- _]; now left|].
  destruct (the_str replacement) as [rs|]; [|discriminate]. cbn [bind].
  destruct (_ && _); [intros [= <- _]; now left|].
  cbn [the_int bind].
  destruct (the_int l) as [lz|]; [|discriminate]. cbn [bind].
  intros [= <- _]. right. exists a, b, rs. auto.
Qed.

(** X6.  [apply_misspellings_only] never removes a placeholder
    delimiter: whatever the matches are, when the function returns, the
    result has at least as many U+E000 as the text. *)
Theorem apply_misspellings_only_keeps_delimiters (t : text) (matches : list json)
    (t' : text) :
  apply_misspellings_only t matches = Ok t' ->
  delimiters t <= delimiters t'.
Proof.
  unfold apply_misspellings_only.
  assert (G : forall ms u s u' s',
             apply_loop u s ms = Ok (u', s') -> delimiters u <= delimiters u').
  { induction ms as [|m ms IH]; intros u s u' s'; simpl.
    - intros [= <- _]. lia.
    - destruct (loop_body u s m) as [[u1 s1]|] eqn:E; [|discriminate].
      simpl. intros E'. specialize (IH _ _ _ _ E').
      destruct (loop_body_inv _ _ _ E) as [->|(a & b & rs & Hg & ->)]; [exact IH|].
      pose proof (splice_keeps_delimiters _ rs _ _ Hg). lia. }
  destruct (apply_loop t 0 matches) as [[u s]|] eqn:E; [|discriminate].
  simpl. intros [= <-]. exact (G _ _ _ _ _ E).
Qed.


Lemma apply_loop_ordered (t : text) (matches : list json) (edits : list edit) :
  Forall2 asks matches edits -> Forall (passes t) edits ->
  forall done pos,
    (0 <= pos)%Z -> ordered t pos edits ->
    exists s',
      apply_loop (done ++ slice_from t pos) (len done - pos) matches =
      Ok (done ++ patched t pos edits, s').
Proof.
  induction 1 as [|m e ms es Ha _ IH]; intros Hp done pos Hpos Hord.
  - simpl. eauto.
  - destruct e as [[o l] r]. destruct Ha as (Hm & Hr & Ho & Hl).
    inversion Hp as [|? ? Hpe Hp']; subst. destruct Hpe as (Hg & Hc).
    destruct Hord as (O1 & O2 & O3). cbn [apply_loop patched].
    pose proof (ordered_bound _ _ _ O3) as Hb.
    destruct (splice_step t done Hpos O1 O2 Hb) as (E1 & E2 & E3).
    rewrite (@loop_body_misspelling _ _ _ m o l r Hm Hr Ho Hl). cbv zeta.
    rewrite E1, Hg.
    assert (Ec : text_eqb (str_lower (slice t o (o + l))) (str_lower r) &&
                 negb (text_eqb (slice t o (o + l)) r) = false).
    { destruct (text_eqb (str_lower _) _) eqn:X1; [|reflexivity].
      destruct (text_eqb (slice _ _ _) r) eqn:X2; [reflexivity|].
      exfalso. apply Hc. split; [now apply text_eqb_eq|].
      intros E. apply text_eqb_eq in E. congruence. }
    rewrite Ec. simpl. rewrite E2, E3.
    destruct (IH Hp' (done ++ slice t pos o ++ r) (o + l)%Z) as (s' & Es);
      [lia | exact O3 |].
    exists s'.
    replace (len done - pos + (len r - l))%Z
      with (len (done ++ slice t pos o ++ r) - (o + l))%Z.
    + repeat rewrite <- app_assoc in Es. repeat rewrite <- app_assoc. exact Es.
    + rewrite !len_app.
      destruct (@slice_inside t pos o) as (_ & _ & L); lia.
Qed.

(** X7.  The running shift does its work: when the matches ask for
    edits that come in ascending order, do not overlap, lie inside the
    text and pass the two guards on it, [apply_misspellings_only] returns
    the text with all the edits made at once at their offsets in the
    original text. *)
Theorem apply_misspellings_only_patches (t : text) (matches : list json)
    (edits : list edit) :
  ordered t 0 edits -> Forall (passes t) edits -> Forall2 asks matches edits ->
  apply_misspellings_only t matches = Ok (patched t 0 edits).
Proof.
  intros Ho Hp Ha.
  destruct (apply_loop_ordered Ha Hp [] (Z.le_refl 0) Ho) as (s' & E).
  unfold apply_misspellings_only. simpl in E.
  rewrite slice_from_skipn, clip_inside in E by (pose proof (len_nonneg t); lia).
  simpl in E. rewrite E. reflexivity.
Qed.

End PatchMore.

(** ** Chunks and the pipeline around them *)

Section ChunkMore.
Context `{Unicode}.
Variable MAX_CHUNK_CHARS : Z.

Lemma chunk_loop_nonempty (parts chunks : list text) (cur : text) :
  Forall (fun c => c <> []) chunks ->
  Forall (fun c => c <> []) (chunk_loop MAX_CHUNK_CHARS parts chunks cur).
Proof.
  revert chunks cur; induction parts as [|p parts IH]; intros chunks cur Hc; simpl.
  - destruct cur as [|c cur]; simpl; [exact Hc|].
    apply Forall_app. split; [exact Hc|]. repeat constructor. discriminate.
  - destruct (_ && nonempty cur) eqn:E; apply IH; [|exact Hc].
    apply andb_true_iff in E. destruct E as [_ E].
    apply Forall_app. split; [exact Hc|]. repeat constructor.
    intros ->. discriminate E.
Qed.

(** X8.  [chunk_paragraphs] never returns an empty chunk; for the empty
    text it returns no chunk at all. *)
Theorem chunk_paragraphs_no_empty_chunk (t : text) :
  Forall (fun c => c <> []) (chunk_paragraphs MAX_CHUNK_CHARS t) /\
  chunk_paragraphs MAX_CHUNK_CHARS [] = [].
Proof.
  split.
  - unfold chunk_paragraphs. apply chunk_loop_nonempty. constructor.
  - unfold chunk_paragraphs. simpl. destruct (_ >? _)%Z; reflexivity.
Qed.

(** While the bound is not reached nothing is flushed. *)
Lemma chunk_loop_within (parts chunks : list text) (cur : text) :
  (len cur + len (concat parts) <= MAX_CHUNK_CHARS)%Z ->
  chunk_loop MAX_CHUNK_CHARS parts chunks cur =
  chunks ++ (if nonempty (cur ++ concat parts) then [cur ++ concat parts] else []).
Proof.
  revert chunks cur; induction parts as [|p parts IH]; intros chunks cur Hl; simpl in *.
  - rewrite app_nil_r. destruct (nonempty cur); [reflexivity | now rewrite app_nil_r].
  - rewrite len_app in Hl. pose proof (len_nonneg (concat parts)).
    destruct (Z.gtb_spec (len cur + len p) MAX_CHUNK_CHARS) as [G|G]; [lia|].
    simpl. rewrite IH by (rewrite len_app; lia). now rewrite <- app_assoc.
Qed.

(** X9.  A text that is within the bound comes back as one chunk, the
    text itself (no chunk when it is empty): taking the whole text as
    the only chunk, as [main] does then, is what the chunker would do. *)
Theorem chunk_paragraphs_within_bound (t : text) :
  (len t <= MAX_CHUNK_CHARS)%Z ->
  chunk_paragraphs MAX_CHUNK_CHARS t = if nonempty t then [t] else [].
Proof.
  intros Hl. unfold chunk_paragraphs.
  rewrite chunk_loop_within; rewrite re_split_concat; simpl; [reflexivity | exact Hl].
Qed.

End ChunkMore.

Section MainMore.
Context `{Unicode}.
Variable World : Type.
Variable call_lt : World -> text -> result json * World.
Variable MAX_CHUNK_CHARS : Z.

Lemma process_chunks_silent (chunks : list text) :
  silent call_lt ->
  forall w, fst (fst (process_chunks call_lt chunks [] [] w)) = chunks.
Proof.
  intros Hs. induction chunks as [|ch chunks IH]; intros w; simpl; [reflexivity|].
  specialize (Hs w ch).
  destruct (call_lt w ch) as [answer w']. simpl in Hs.
  destruct Hs as [->|(e & ->)]; rewrite process_chunks_acc; simpl; now rewrite IH.
Qed.

(** X10.  With a grammar service that changes nothing (down, or with
    nothing to correct), [main] writes the text as the local stages
    leave it, whatever the chunk bound: cutting the text into chunks and
    joining them again is not seen in the output. *)
Theorem main_without_corrections (raw : text) (w : World) :
  silent call_lt ->
  fst (fst (main call_lt MAX_CHUNK_CHARS raw w)) =
  if forallb is_space raw then [] else local_rewrite raw.
Proof.
  intros Hs. unfold main, local_rewrite.
  destruct (forallb is_space raw); [reflexivity|].
  destruct (protect raw) as [safe protected].
  set (safe' := iphone_like_caps (safe_spacing_cleanup (fix_dot_joined_words safe))).
  clearbody safe'.
  set (chunks := if (len safe' >? MAX_CHUNK_CHARS)%Z
                 then chunk_paragraphs MAX_CHUNK_CHARS safe' else [safe']).
  pose proof (@process_chunks_silent chunks Hs w) as E.
  destruct (process_chunks call_lt chunks [] [] w) as [[out err] w'].
  simpl in E. subst out. cbv zeta. cbn [fst].
  assert (C : concat chunks = safe').
  { unfold chunks. destruct (len safe' >? MAX_CHUNK_CHARS)%Z.
    - unfold chunk_paragraphs. rewrite chunk_loop_concat. cbn [concat app].
      apply re_split_concat.
    - cbn [concat]. apply app_nil_r. }
  now rewrite C.
Qed.

End MainMore.

(** ** Placeholders and the dictionary of [protect] *)

Lemma undigits_snoc (x : text) (d : char) :
  undigits (x ++ [d]) = (undigits x * 10 + (d - 48))%N.
Proof. unfold undigits. now rewrite fold_left_app. Qed.

Lemma decimal_from_value (fuel : nat) :
  forall n, (n < 10 ^ N.of_nat fuel)%N -> undigits (decimal_from fuel n) = n.
Proof.
  induction fuel as [|fuel IH]; intros n Hn.
  - simpl in *. assert (n = 0%N) by lia. now subst.
  - cbn [decimal_from]. rewrite undigits_snoc.
    replace (48 + n mod 10 - 48)%N with (n mod 10)%N
      by (generalize (n mod 10)%N; intros; lia).
    destruct (N.ltb_spec n 10) as [L|L].
    + simpl. now apply N.mod_small.
    + rewrite IH.
      * pose proof (N.div_mod' n 10). lia.
      * rewrite Nat2N.inj_succ, N.pow_succ_r' in Hn.
        apply N.Div0.div_lt_upper_bound; lia.
Qed.

Lemma decimal_value (n : N) : undigits (decimal n) = n.
Proof.
  unfold decimal. apply decimal_from_value.
  rewrite Nat2N.inj_succ, N2Nat.id.
  destruct n as [|p]; [reflexivity|].
  eapply N.lt_le_trans; [apply N.log2_spec; reflexivity|].
  apply N.pow_le_mono_l. lia.
Qed.

Lemma decimal_from_digits (fuel : nat) :
  forall n, Forall (fun c => is_digit09 c = true) (decimal_from fuel n).
Proof.
  induction fuel as [|fuel IH]; intros n; cbn [decimal_from]; [constructor|].
  apply Forall_app. split.
  - destruct (n <? 10)%N; [constructor | apply IH].
  - repeat constructor. unfold is_digit09, in_range.
    assert (B : (n mod 10 < 10)%N) by (apply N.mod_upper_bound; discriminate).
    revert B. generalize (n mod 10)%N. intros d B.
    apply andb_true_iff. split; apply N.leb_le; lia.
Qed.

Lemma decimal_digits (n : N) : Forall (fun c => is_digit09 c = true) (decimal n).
Proof. apply decimal_from_digits. Qed.

Lemma PLACEHOLDER_FMT_inj (n m : N) : PLACEHOLDER_FMT n = PLACEHOLDER_FMT m -> n = m.
Proof.
  unfold PLACEHOLDER_FMT. intros E. simpl in E. injection E as E.
  apply app_inv_tail in E.
  rewrite <- (decimal_value n), <- (decimal_value m). now rewrite E.
Qed.

Lemma dict_set_fresh {V : Type} (k : text) (v : V) (d : dict V) :
  ~ In k (map fst d) -> dict_set k v d = d ++ [(k, v)].
Proof.
  induction d as [|[k' v'] d IH]; simpl; intros Hn; [reflexivity|].
  destruct (text_eqb k k') eqn:E.
  - apply text_eqb_eq in E. subst. exfalso. apply Hn. now left.
  - rewrite IH; [reflexivity|]. intros Hin. apply Hn. now right.
Qed.

Lemma placeholders_succ (n : nat) :
  placeholders (S n) = placeholders n ++ [PLACEHOLDER_FMT (N.of_nat n)].
Proof. unfold placeholders. now rewrite seq_S, map_app. Qed.

Lemma placeholders_fresh (n : nat) :
  ~ In (PLACEHOLDER_FMT (N.of_nat n)) (placeholders n).
Proof.
  unfold placeholders. intros Hin. apply in_map_iff in Hin.
  destruct Hin as (i & E & Hi). apply in_seq in Hi.
  apply PLACEHOLDER_FMT_inj in E. lia.
Qed.


Lemma no_delimiter (t : text) : delimiters t = 0 -> existsb (N.eqb PH) t = false.
Proof.
  unfold delimiters. induction t as [|c t IH]; cbn [existsb filter]; [reflexivity|].
  destruct (N.eqb PH c); cbn [orb length]; [discriminate | exact IH].
Qed.

(** [str.replace] finds nothing when the first character of the key is
    not in the text. *)
Lemma replace_from_absent (a : char) (k v : text) (fuel : nat) :
  forall s, existsb (N.eqb a) s = false -> replace_from fuel (a :: k) v s = s.
Proof.
  induction fuel as [|fuel IH]; intros s Hs; [reflexivity|].
  destruct s as [|c s]; [reflexivity|].
  cbn [existsb] in Hs. apply orb_false_iff in Hs. destruct Hs as [E Hs].
  cbn [replace_from strip_prefix]. rewrite E. now rewrite IH.
Qed.

Lemma unprotect_absent (a : char) (d : dict text) (t : text) :
  Forall (fun k => exists k', k = a :: k') (map fst d) ->
  existsb (N.eqb a) t = false ->
  fold_left (fun t kv => replace (fst kv) (snd kv) t) d t = t.
Proof.
  intros Hd Ht. induction d as [|[k v] d IH]; [reflexivity|].
  cbn [map fst] in Hd. inversion Hd as [|? ? (k' & ->) Hd']; subst.
  cbn [fold_left fst snd]. unfold replace at 2.
  rewrite replace_from_absent by exact Ht. now apply IH.
Qed.

Section ProtectMore.
Context `{Unicode}.

Lemma repl_numbered (st : pstate) (m : mstate) :
  numbered st -> numbered (snd (repl st m)).
Proof.
  destruct st as [n d]. unfold numbered, repl. simpl. intros E.
  rewrite dict_set_fresh.
  - rewrite map_app, E. simpl.
    replace (N.to_nat (n + 1)) with (S (N.to_nat n)) by lia.
    now rewrite placeholders_succ, N2Nat.id.
  - rewrite E. rewrite <- (N2Nat.id n) at 1. apply placeholders_fresh.
Qed.

Lemma sub_from_st_numbered (r : regex) (fuel : nat) :
  forall st bef s,
    numbered st -> numbered (snd (sub_from_st fuel r repl st bef s)).
Proof.
  induction fuel as [|fuel IH]; intros st bef s Hn; simpl; [exact Hn|].
  assert (Hcopy : forall st1, numbered st1 ->
            numbered (snd match s with
                          | [] => ([], st1)
                          | c :: s' =>
                              let (tl, st2) := sub_from_st fuel r repl st1 (Some c) s' in
                              (c :: tl, st2)
                          end)).
  { intros st1 H1. destruct s as [|c s']; [exact H1|].
    specialize (IH st1 (Some c) s' H1).
    destruct (sub_from_st fuel r repl st1 (Some c) s'). exact IH. }
  destruct (match_here r bef s) as [m|]; [|now apply Hcopy].
  pose proof (repl_numbered m Hn) as H1.
  destruct (repl st m) as [out st1]. simpl in H1.
  destruct (Nat.ltb _ _).
  - specialize (IH st1 (before m) (rest m) H1).
    destruct (sub_from_st fuel r repl st1 (before m) (rest m)). exact IH.
  - destruct s as [|c s']; [exact H1|].
    specialize (IH st1 (Some c) s' H1).
    destruct (sub_from_st fuel r repl st1 (Some c) s'). exact IH.
Qed.

Lemma sub_numbered (pat : regex) (ts : text * pstate) :
  numbered (snd ts) -> numbered (snd (sub pat ts)).
Proof. intros Hn. unfold sub, re_sub_st. now apply sub_from_st_numbered. Qed.

Lemma protect_numbered (raw : text) :
  exists n, map fst (snd (protect raw)) = placeholders n.
Proof.
  assert (G : numbered (snd (fold_left (fun ts pat => sub pat ts)
                               [URL_RE; EMAIL_RE; PATH_RE; FLAG_RE; DOT_IDENT_RE;
                                CAMEL_RE; SNAKE_RE; KEBAB_RE]
                               (sub BRAND_RE (raw, (0%N, [])))))).
  { assert (F : forall pats ts, numbered (snd ts) ->
                  numbered (snd (fold_left (fun ts pat => sub pat ts) pats ts))).
    { induction pats as [|p pats IH]; intros ts Hn; simpl; [exact Hn|].
      apply IH. now apply sub_numbered. }
    apply F. apply sub_numbered. reflexivity. }
  unfold protect. cbv zeta. revert G.
  generalize (fold_left (fun ts pat => sub pat ts)
                [URL_RE; EMAIL_RE; PATH_RE; FLAG_RE; DOT_IDENT_RE;
                 CAMEL_RE; SNAKE_RE; KEBAB_RE]
                (sub BRAND_RE (raw, (0%N, [])))).
  intros [t [n d]] G. unfold numbered in G. cbn [fst snd] in *.
  exists (N.to_nat n). exact G.
Qed.


(** X12.  [unprotect] with the dictionary of [protect] touches a text
    at placeholder delimiters only: a text without U+E000 comes back as
    it is, whatever was recorded. *)
Theorem unprotect_plain_text (raw t : text) :
  delimiters t = 0 -> unprotect t (snd (protect raw)) = t.
Proof.
  intros Ht. apply no_delimiter in Ht.
  destruct (protect_numbered raw) as (n & G).
  unfold unprotect. apply unprotect_absent with (a := PH); [|exact Ht].
  rewrite G. unfold placeholders. apply Forall_map, Forall_forall.
  intros i _. now exists (decimal (N.of_nat i) ++ [PH]).
Qed.

End ProtectMore.

(** ** Tokens under the local rewriting *)

Lemma strip_prefix_iff (k s s' : text) : strip_prefix k s = Some s' <-> s = k ++ s'.
Proof.
  revert s; induction k as [|x k IH]; intros s; simpl.
  - split; [intros [= ->]; reflexivity | intros ->; reflexivity].
  - destruct s as [|y s]; [split; discriminate|].
    destruct (N.eqb_spec x y) as [->|N].
    + rewrite IH. split; [intros ->; reflexivity | intros [= ->]; reflexivity].
    + split; [discriminate | intros [= E _]; congruence].
Qed.

Lemma contains_iff (k s : text) :
  contains k s = true <-> exists u v, s = u ++ k ++ v.
Proof.
  induction s as [|c s IH]; simpl.
  - destruct (strip_prefix k []) as [s'|] eqn:E.
    + apply strip_prefix_iff in E. split; [intros _; exists [], s'; exact E | reflexivity].
    + split; [discriminate|]. intros (u & v & Eq).
      destruct u; [|discriminate]. simpl in Eq.
      assert (strip_prefix k [] = Some v) by (apply strip_prefix_iff; exact Eq).
      congruence.
  - destruct (strip_prefix k (c :: s)) as [s'|] eqn:E.
    + apply strip_prefix_iff in E. split; [intros _; exists [], s'; exact E | reflexivity].
    + rewrite IH. split.
      * intros (u & v & ->). exists (c :: u), v. reflexivity.
      * intros (u & v & Eq). destruct u as [|c' u].
        -- simpl in Eq.
           assert (strip_prefix k (c :: s) = Some v) by (apply strip_prefix_iff; exact Eq).
           congruence.
        -- injection Eq as -> ->. now exists u, v.
Qed.

(** A rewriting that goes place by place keeps a token whose characters
    it does not change. *)
Lemma pointwise_keeps (R : char -> char -> Prop) (k t t' : text) :
  Forall (fun c => forall c', R c c' -> c' = c) k ->
  Forall2 R t t' -> contains k t = true -> contains k t' = true.
Proof.
  intros Hk F C. apply contains_iff in C. destruct C as (u & v & ->).
  apply Forall2_app_inv_l in F. destruct F as (u' & r' & Fu & Fr & ->).
  apply Forall2_app_inv_l in Fr. destruct Fr as (k' & v' & Fk & Fv & ->).
  apply contains_iff. exists u', v'. f_equal. f_equal.
  clear - Hk Fk. induction Fk as [|x y k k' Rxy Fk IH]; [reflexivity|].
  inversion Hk; subst. f_equal; auto.
Qed.

Lemma skeleton_app (x y : text) :
  forall b, skeleton b (x ++ y) = skeleton b x ++ skeleton (after is_sep b x) y.
Proof.
  induction x as [|c x IH]; intros b; simpl; [reflexivity|].
  destruct (is_sep c); rewrite IH; [now rewrite app_assoc | reflexivity].
Qed.

(** A scan keeps the skeleton when each of its steps does. *)
Lemma scan_skeleton (h : step) :
  (forall s out s', h s = Some (out, s') ->
     exists w, s = w ++ s' /\
       forall b, skeleton b out = skeleton b w /\
                 after is_sep b out = after is_sep b w) ->
  forall fuel b s, skeleton b (scan fuel h s) = skeleton b s.
Proof.
  intros Hh. induction fuel as [|fuel IH]; intros b s; simpl; [reflexivity|].
  assert (Hcopy : forall b0, skeleton b0 match s with
                          | [] => []
                          | c :: s' => c :: scan fuel h s'
                          end = skeleton b0 s).
  { intros b0. destruct s as [|c s']; [reflexivity|].
    simpl. now rewrite !IH. }
  destruct (h s) as [[out s']|] eqn:E; [|apply Hcopy].
  destruct (Hh _ _ _ E) as (w & Es & V).
  destruct (V b) as (V1 & V2).
  destruct (Nat.ltb_spec (length s') (length s)) as [L|L].
  - rewrite skeleton_app, IH, V1, V2, <- skeleton_app. now rewrite <- Es.
  - assert (W : w = []).
    { destruct w as [|c w]; [reflexivity|].
      rewrite Es, length_app in L. simpl in L. lia. }
    subst w. simpl in V1, V2. rewrite skeleton_app, V1, V2. apply Hcopy.
Qed.

Lemma skeleton_seps (x : text) :
  Forall (fun c => is_sep c = true) x ->
  skeleton true x = [] /\ after is_sep true x = true.
Proof.
  induction 1 as [|c x Hc _ [IH1 IH2]]; simpl; [split; reflexivity|].
  now rewrite Hc.
Qed.

(** Two runs of separators count the same. *)
Lemma seps_same (c d : char) (x y : text) :
  Forall (fun c => is_sep c = true) (c :: x) ->
  Forall (fun c => is_sep c = true) (d :: y) ->
  forall b, skeleton b (c :: x) = skeleton b (d :: y) /\
            after is_sep b (c :: x) = after is_sep b (d :: y).
Proof.
  intros Hx Hy b. inversion Hx as [|? ? Hc Hx']; inversion Hy as [|? ? Hd Hy']; subst.
  destruct (skeleton_seps Hx') as [X1 X2], (skeleton_seps Hy') as [Y1 Y2].
  simpl. now rewrite Hc, Hd, X1, X2, Y1, Y2.
Qed.

Lemma drop_run (p : char -> bool) (s : text) :
  exists ws, s = ws ++ drop p s /\ Forall (fun c => p c = true) ws.
Proof.
  induction s as [|c s (ws & E & V)]; simpl.
  - now exists [].
  - destruct (p c) eqn:Ec.
    + exists (c :: ws). split; [simpl; f_equal; exact E | now constructor].
    + now exists [].
Qed.

Lemma space_sep (c : char) : is_space c = true -> is_sep c = true.
Proof. unfold is_sep. now intros ->. Qed.

Lemma punct_sep (c : char) : is_punct c = true -> is_sep c = true.
Proof. unfold is_sep. intros ->. apply orb_true_r. Qed.

Lemma seps_of (p : char -> bool) (x : text) :
  (forall c, p c = true -> is_sep c = true) ->
  Forall (fun c => p c = true) x -> Forall (fun c => is_sep c = true) x.
Proof. intros Hp. apply Forall_impl. exact Hp. Qed.

Lemma ellipsis_step_skeleton (s out s' : text) :
  ellipsis_step s = Some (out, s') ->
  exists w, s = w ++ s' /\
    forall b, skeleton b out = skeleton b w /\
              after is_sep b out = after is_sep b w.
Proof.
  destruct s as [|c s1]; [discriminate|]. simpl.
  destruct (is_dot c) eqn:Ec; [|discriminate].
  destruct (drop is_space s1) as [|d s2] eqn:E1; [discriminate|].
  destruct (is_dot d) eqn:Ed; [|discriminate].
  destruct (drop is_space s2) as [|e s3] eqn:E2; [discriminate|].
  destruct (is_dot e) eqn:Ee; [|discriminate].
  intros [= <- <-].
  destruct (drop_run is_space s1) as (w1 & F1 & V1).
  destruct (drop_run is_space s2) as (w2 & F2 & V2).
  rewrite E1 in F1. rewrite E2 in F2.
  apply dot_is in Ec, Ed, Ee. subst c d e.
  exists (46%N :: w1 ++ [46%N] ++ w2 ++ [46%N]). split.
  - rewrite F1, F2. simpl. repeat (rewrite <- app_assoc; simpl). reflexivity.
  - apply seps_same.
    + repeat constructor.
    + constructor; [reflexivity|].
      apply Forall_app. split; [exact (seps_of _ space_sep V1)|].
      constructor; [reflexivity|].
      apply Forall_app. split; [exact (seps_of _ space_sep V2)|].
      repeat constructor.
Qed.

Lemma space_before_punct_step_skeleton (s out s' : text) :
  space_before_punct_step s = Some (out, s') ->
  exists w, s = w ++ s' /\
    forall b, skeleton b out = skeleton b w /\
              after is_sep b out = after is_sep b w.
Proof.
  destruct s as [|c s1]; [discriminate|]. simpl.
  destruct (is_space c) eqn:Ec; [|discriminate].
  destruct (drop is_space s1) as [|p r] eqn:E1; [discriminate|].
  destruct (is_punct p) eqn:Ep; [|discriminate].
  intros [= <- <-].
  destruct (drop_run is_space s1) as (w1 & F1 & V1).
  rewrite E1 in F1.
  exists (c :: w1 ++ [p]). split.
  - rewrite F1. simpl. repeat (rewrite <- app_assoc; simpl). reflexivity.
  - apply seps_same.
    + repeat constructor. now apply punct_sep.
    + constructor; [now apply space_sep|].
      apply Forall_app. split; [exact (seps_of _ space_sep V1)|].
      repeat constructor. now apply punct_sep.
Qed.

Lemma space_after_step_skeleton (P Q : char -> bool) (s out s' : text) :
  (forall c, P c = true -> is_punct c = true) ->
  space_after_step P Q s = Some (out, s') ->
  exists w, s = w ++ s' /\
    forall b, skeleton b out = skeleton b w /\
              after is_sep b out = after is_sep b w.
Proof.
  intros HP. destruct s as [|p [|x r]]; try discriminate. simpl.
  destruct (P p) eqn:Ep; [|discriminate].
  destruct (Q x); [|discriminate].
  intros [= <- <-]. exists [p; x]. split; [reflexivity|].
  intros b. simpl. rewrite (punct_sep _ (HP _ Ep)).
  change (is_sep 32%N) with true. cbv iota.
  destruct (is_sep x); split; reflexivity.
Qed.

Lemma multispace_step_skeleton (s out s' : text) :
  multispace_step s = Some (out, s') ->
  exists w, s = w ++ s' /\
    forall b, skeleton b out = skeleton b w /\
              after is_sep b out = after is_sep b w.
Proof.
  destruct s as [|c [|d r]]; try discriminate. simpl.
  destruct (is_blank c) eqn:Ec; [|discriminate].
  destruct (is_blank d) eqn:Ed; [|discriminate].
  intros [= <- <-].
  destruct (drop_run is_blank r) as (w1 & F1 & V1).
  assert (B : forall c, is_blank c = true -> is_sep c = true)
    by (intros ? ?; now apply space_sep, blank_space).
  exists (c :: d :: w1). split.
  - rewrite F1 at 1. reflexivity.
  - apply seps_same.
    + repeat constructor.
    + constructor; [now apply B|]. constructor; [now apply B|].
      exact (seps_of _ B V1).
Qed.

(** A token free of separators is read off the skeleton. *)
Lemma skeleton_token_prefix (k : text) :
  Forall (fun c => is_sep c = false) k ->
  forall b v, exists b', skeleton b (k ++ v) = map Some k ++ skeleton b' v.
Proof.
  induction 1 as [|c k Hc _ IH]; intros b v; simpl.
  - now exists b.
  - rewrite Hc. destruct (IH false v) as (b' & E). exists b'. now rewrite E.
Qed.

Lemma skeleton_prefix_token (k : text) :
  forall t v, skeleton false t = map Some k ++ v -> exists v', t = k ++ v'.
Proof.
  induction k as [|x k IH]; intros t v E; [now exists t|].
  destruct t as [|c t]; [discriminate|]. simpl in E.
  destruct (is_sep c); [discriminate|].
  injection E as -> E. destruct (IH _ _ E) as (v' & ->). now exists v'.
Qed.

Lemma skeleton_token (k : text) :
  k <> [] ->
  forall t b u v, skeleton b t = u ++ map Some k ++ v ->
    exists u' v', t = u' ++ k ++ v'.
Proof.
  intros Hk. induction t as [|c t IH]; intros b u v E; simpl in E.
  - symmetry in E. apply app_eq_nil in E. destruct E as [_ E].
    apply app_eq_nil in E. destruct E as [E _].
    destruct k; [contradiction | discriminate].
  - assert (Hnext : forall b1 u1, skeleton b1 t = u1 ++ map Some k ++ v ->
                      exists u' v', c :: t = u' ++ k ++ v').
    { intros b1 u1 E1. destruct (IH _ _ _ E1) as (u' & v' & ->).
      now exists (c :: u'), v'. }
    destruct (is_sep c).
    + destruct b; simpl in E; [now apply (Hnext true u)|].
      destruct u as [|o u].
      * destruct k; [contradiction | discriminate].
      * injection E as _ E. now apply (Hnext true u).
    + destruct u as [|o u].
      * destruct k as [|x k]; [contradiction|]. simpl in E.
        injection E as -> E.
        destruct (@skeleton_prefix_token _ _ _ E) as (v' & ->).
        now exists [], v'.
      * injection E as _ E. now apply (Hnext false u).
Qed.

Lemma skeleton_contains (k : text) :
  Forall (fun c => is_sep c = false) k -> k <> [] ->
  forall t, contains k t = true <->
            exists u v, skeleton false t = u ++ map Some k ++ v.
Proof.
  intros Hs Hk t. rewrite contains_iff. split.
  - intros (u & v & ->). rewrite skeleton_app.
    destruct (skeleton_token_prefix Hs (after is_sep false u) v) as (b' & E).
    rewrite E. now eexists _, _.
  - intros (u & v & E). exact (skeleton_token Hk _ _ _ _ E).
Qed.

Lemma digit_cases (c : char) :
  is_digit09 c = true -> In c [48; 49; 50; 51; 52; 53; 54; 55; 56; 57]%N.
Proof.
  unfold is_digit09, in_range. intros E. apply andb_true_iff in E.
  destruct E as [L1 L2]. apply N.leb_le in L1, L2. simpl. lia.
Qed.

Lemma placeholder_chars (n : N) :
  Forall (fun c => c = PH \/ is_digit09 c = true) (PLACEHOLDER_FMT n).
Proof.
  unfold PLACEHOLDER_FMT. apply Forall_app. split; [repeat constructor; now left|].
  apply Forall_app. split; [|repeat constructor; now left].
  eapply Forall_impl; [|apply decimal_digits]. intros c Hc. now right.
Qed.

Section Tokens.
Context `{Unicode}.

Lemma safe_spacing_cleanup_skeleton (t : text) :
  skeleton false (safe_spacing_cleanup t) = skeleton false t.
Proof.
  unfold safe_spacing_cleanup, SPACE_AFTER_PUNCT_RE, SPACE_AFTER_DOT_RE.
  rewrite (@re_sub_scan _ _ _ _ _ hit_multispace),
    (scan_skeleton _ multispace_step_skeleton).
  rewrite (@re_sub_scan _ _ _ _ _ (hit_space_after is_dot is_alpha)),
    (scan_skeleton _ (fun s out s' => @space_after_step_skeleton is_dot is_alpha s out s' dot_punct)).
  rewrite (@re_sub_scan _ _ _ _ _ (hit_space_after is_punct is_alnum)),
    (scan_skeleton _ (fun s out s' =>
       @space_after_step_skeleton is_punct is_alnum s out s' (fun c E => E))).
  rewrite (@re_sub_scan _ _ _ _ _ hit_space_before_punct),
    (scan_skeleton _ space_before_punct_step_skeleton).
  rewrite (@re_sub_scan _ _ _ _ _ hit_ellipsis),
    (scan_skeleton _ ellipsis_step_skeleton).
  reflexivity.
Qed.

Lemma safe_spacing_cleanup_token (k t : text) :
  Forall (fun c => is_sep c = false) k ->
  contains k (safe_spacing_cleanup t) = contains k t.
Proof.
  intros Hs. destruct k as [|x k].
  { assert (N : forall s, contains [] s = true) by (intros [|? ?]; reflexivity).
    now rewrite !N. }
  assert (Hk : x :: k <> []) by discriminate.
  pose proof (skeleton_contains Hs Hk t) as A.
  pose proof (skeleton_contains Hs Hk (safe_spacing_cleanup t)) as B.
  rewrite safe_spacing_cleanup_skeleton in B.
  destruct (contains (x :: k) t), (contains (x :: k) (safe_spacing_cleanup t));
    try reflexivity.
  - apply (proj2 B), (proj1 A). reflexivity.
  - symmetry. apply (proj2 A), (proj1 B). reflexivity.
Qed.

(** X13.  [safe_spacing_cleanup] neither breaks nor forges a token: a
    string without white space and without the marks , . ; : ! ? occurs
    in the result exactly when it occurs in the text. *)
Theorem safe_spacing_cleanup_keeps_tokens (k t : text) :
  Forall (fun c => is_space c = false /\ is_punct c = false) k ->
  contains k (safe_spacing_cleanup t) = contains k t.
Proof.
  intros Hs. apply safe_spacing_cleanup_token.
  eapply Forall_impl; [|exact Hs]. intros c [E1 E2]. unfold is_sep.
  now rewrite E1, E2.
Qed.

(** X14.  The local rewriting leaves the placeholders alone: a
    placeholder that occurs in the protected text occurs in the text
    after [fix_dot_joined_words], [safe_spacing_cleanup] and
    [iphone_like_caps], whatever stands around it. *)
Theorem local_rewriting_keeps_placeholders (n : N) (t : text) :
  contains (PLACEHOLDER_FMT n) t = true ->
  contains (PLACEHOLDER_FMT n)
    (iphone_like_caps (safe_spacing_cleanup (fix_dot_joined_words t))) = true.
Proof.
  intros C. pose proof (placeholder_chars n) as P.
  eapply (@pointwise_keeps to_upper); [| apply iphone_like_caps_pointwise |].
  - eapply Forall_impl; [|exact P]. intros c Hc c' [->|[L ->]]; [reflexivity|].
    exfalso. destruct Hc as [->|D]; [now vm_compute in L|].
    apply digit_cases in D. simpl in D.
    repeat (destruct D as [D|D]; [subst; now vm_compute in L|]). exact D.
  - rewrite safe_spacing_cleanup_token.
    + eapply (@pointwise_keeps dot_to_space);
        [| apply fix_dot_joined_words_pointwise | exact C].
      eapply Forall_impl; [|exact P]. intros c Hc c' [->|[-> ->]]; [reflexivity|].
      exfalso. destruct Hc as [E|D]; [now vm_compute in E | now vm_compute in D].
    + eapply Forall_impl; [|exact P]. intros c [->|D]; [reflexivity|].
      apply digit_cases in D. by_cases D.
Qed.

End Tokens.

(** ** The further properties at work *)

(** A correction right after a placeholder. *)
Lemma apply_misspellings_only_keeps_delimiters_witness :
  let t := PLACEHOLDER_FMT 0 ++ str " teh" in
  let t' := PLACEHOLDER_FMT 0 ++ str " the" in
  @apply_misspellings_only ascii_tables t [a_match "misspelling" 4 3 "the"] = Ok t'
  /\ delimiters t <= delimiters t'.
Proof.
  cbv zeta.
  assert (E : @apply_misspellings_only ascii_tables (PLACEHOLDER_FMT 0 ++ str " teh")
                [a_match "misspelling" 4 3 "the"] =
              Ok (PLACEHOLDER_FMT 0 ++ str " the")) by (vm_compute; reflexivity).
  split; [exact E|].
  exact (@apply_misspellings_only_keeps_delimiters ascii_tables _ _ _ E).
Defined.

(** Two corrections of different lengths, offsets against the original
    text. *)
Lemma apply_misspellings_only_patches_witness :
  let t := str "teh cat teh" in
  let edits := [(0, 3, str "these"); (8, 3, str "the")]%Z in
  let matches := [a_match "misspelling" 0 3 "these"; a_match "misspelling" 8 3 "the"] in
  ordered t 0 edits
  /\ Forall (@passes ascii_tables t) edits
  /\ Forall2 asks matches edits
  /\ @apply_misspellings_only ascii_tables t matches = Ok (patched t 0 edits)
  /\ patched t 0 edits = str "these cat the".
Proof.
  cbv zeta.
  assert (O : ordered (str "teh cat teh") 0
                [(0, 3, str "these"); (8, 3, str "the")]%Z).
  { unfold ordered, len. simpl. lia. }
  assert (P : Forall (@passes ascii_tables (str "teh cat teh"))
                [(0, 3, str "these"); (8, 3, str "the")]%Z).
  { repeat constructor; try (intros [E _]; vm_compute in E; discriminate E). }
  assert (A : Forall2 asks
                [a_match "misspelling" 0 3 "these"; a_match "misspelling" 8 3 "the"]
                [(0, 3, str "these"); (8, 3, str "the")]%Z).
  { repeat constructor; exists (JStr (str "misspelling")); split; reflexivity. }
  split; [exact O|]. split; [exact P|]. split; [exact A|].
  split; [|vm_compute; reflexivity].
  exact (@apply_misspellings_only_patches ascii_tables _ _ _ O P A).
Defined.

(** Two paragraphs well within the bound of 1200 characters. *)
Lemma chunk_paragraphs_within_bound_witness :
  let t := [111; 110; 101; 10; 10; 116; 119; 111]%N in
  (len t <= 1200)%Z /\ @chunk_paragraphs ascii_tables 1200 t = [t].
Proof.
  cbv zeta.
  assert (L : (len [111; 110; 101; 10; 10; 116; 119; 111]%N <= 1200)%Z)
    by (vm_compute; discriminate).
  split; [exact L|].
  exact (@chunk_paragraphs_within_bound ascii_tables 1200 _ L).
Defined.

(** The service that finds nothing and fails on its second request. *)
Lemma main_without_corrections_witness :
  let raw := str "i like teh.cat" in
  @silent ascii_tables nat flaky_service
  /\ fst (fst (@main ascii_tables nat flaky_service 1200 raw 1)) =
     @local_rewrite ascii_tables raw
  /\ @local_rewrite ascii_tables raw = str "I like teh cat".
Proof.
  cbv zeta.
  assert (S : @silent ascii_tables nat flaky_service).
  { intros w ch. unfold flaky_service.
    destruct (Nat.eqb w 1); [right; eexists; reflexivity | left; reflexivity]. }
  split; [exact S|]. split; [|vm_compute; reflexivity].
  exact (@main_without_corrections ascii_tables nat flaky_service 1200
           (str "i like teh.cat") 1 S).
Defined.

(** A text without delimiter against the dictionary of another text. *)
Lemma unprotect_plain_text_witness :
  let raw := str "see my_var and camelCase" in
  let t := str "plain text" in
  delimiters t = 0
  /\ length (snd (@protect ascii_tables raw)) = 2
  /\ unprotect t (snd (@protect ascii_tables raw)) = t.
Proof.
  cbv zeta. split; [reflexivity|]. split; [vm_compute; reflexivity|].
  exact (@unprotect_plain_text ascii_tables (str "see my_var and camelCase")
           (str "plain text") eq_refl).
Defined.

(** An identifier with spaces and a comma around it. *)
Lemma safe_spacing_cleanup_keeps_tokens_witness :
  let k := str "a_b" in
  let t := str "x  a_b ,y" in
  Forall (fun c => is_space c = false /\ is_punct c = false) k
  /\ @safe_spacing_cleanup ascii_tables t = str "x a_b, y"
  /\ contains k (@safe_spacing_cleanup ascii_tables t) = contains k t.
Proof.
  cbv zeta.
  assert (F : Forall (fun c => is_space c = false /\ is_punct c = false) (str "a_b"))
    by (repeat constructor).
  split; [exact F|]. split; [vm_compute; reflexivity|].
  exact (@safe_spacing_cleanup_keeps_tokens ascii_tables (str "a_b") (str "x  a_b ,y") F).
Defined.

(** A placeholder between a lone i and a spaced full stop. *)
Lemma local_rewriting_keeps_placeholders_witness :
  let t := str "i saw " ++ PLACEHOLDER_FMT 0 ++ str " .ok" in
  contains (PLACEHOLDER_FMT 0) t = true
  /\ contains (PLACEHOLDER_FMT 0)
       (@iphone_like_caps ascii_tables
          (@safe_spacing_cleanup ascii_tables
             (@fix_dot_joined_words ascii_tables t))) = true.
Proof.
  cbv zeta.
  assert (C : contains (PLACEHOLDER_FMT 0)
                (str "i saw " ++ PLACEHOLDER_FMT 0 ++ str " .ok") = true)
    by (vm_compute; reflexivity).
  split; [exact C|].
  exact (@local_rewriting_keeps_placeholders ascii_tables 0 _ C).
Defined.
